(** * ModernTTS: the multi-voice text-to-speech pipeline

    A shallow embedding of the parts of [audio_manager.py], [validation.py],
    [config.py], [settings_manager.py] and [modern_tts.py] that decide how
    a text is cut into (voice, text) segments, how a credential, a voice
    and a text are validated, how the stored settings are read, and how the
    two workers build their client and drive the remote speech backend.

    Python [str] values are sequences of Unicode code points; they are
    modelled as [list N].  String constants of the source are written as
    the same literals and decoded from UTF-8 by [lit].  Audio buffers are
    [list Byte.byte]. *)

From Stdlib Require Import NArith ZArith String Ascii List Lia DecimalString.
From stdpp Require Import base list gmap.

Open Scope N_scope.

(** ** Python strings *)

Module PyStr.

Abbreviation str := (list N).

(** Decoder of the UTF-8 bytes of a literal into code points. *)
Fixpoint utf8_go (pending : nat) (acc : N) (bs : list N) : str :=
  match bs with
  | [] => []
  | b :: bs' =>
      match pending with
      | S k =>
          let acc' := acc * 64 + b mod 64 in
          match k with
          | O => acc' :: utf8_go O 0 bs'
          | S _ => utf8_go k acc' bs'
          end
      | O =>
          if b <? 128 then b :: utf8_go O 0 bs'
          else if b <? 224 then utf8_go 1 (b mod 32) bs'
          else if b <? 240 then utf8_go 2 (b mod 16) bs'
          else utf8_go 3 (b mod 8) bs'
      end
  end.

Definition lit (s : string) : str :=
  utf8_go O 0 (map N_of_ascii (list_ascii_of_string s)).

(** [str(n)] for a non-negative integer. *)
Definition decimal (n : nat) : str :=
  lit (NilZero.string_of_uint (Nat.to_uint n)).

Arguments lit : simpl never.
Arguments decimal : simpl never.

Definition in_range (lo hi c : N) : bool := (lo <=? c) && (c <=? hi).

(** [str.isspace] on one code point: the white-space table of CPython. *)
Definition is_space (c : N) : bool :=
  in_range 9 13 c || in_range 28 32 c || (c =? 133) || (c =? 160)
  || (c =? 5760) || in_range 8192 8202 c || (c =? 8232) || (c =? 8233)
  || (c =? 8239) || (c =? 8287) || (c =? 12288).

Fixpoint lstrip (s : str) : str :=
  match s with
  | [] => []
  | c :: s' => if is_space c then lstrip s' else s
  end.

Definition rstrip (s : str) : str := reverse (lstrip (reverse s)).

(** [s.strip()] *)
Definition strip (s : str) : str := rstrip (lstrip s).

(** [s.startswith(p)] *)
Fixpoint startswith (p s : str) : bool :=
  match p, s with
  | [], _ => true
  | _ :: _, [] => false
  | a :: p', b :: s' => (a =? b) && startswith p' s'
  end.

(** [needle in s] *)
Fixpoint contains (needle s : str) : bool :=
  startswith needle s ||
  match s with
  | [] => false
  | _ :: s' => contains needle s'
  end.

(** [s.find(needle)], [None] standing for -1. *)
Fixpoint find (needle s : str) : option nat :=
  if startswith needle s then Some O
  else match s with
       | [] => None
       | _ :: s' => S <$> find needle s'
       end.

(** [s[a:b]] for [0 <= a], [0 <= b]. *)
Definition slice (s : str) (a b : nat) : str := take (b - a) (drop a s).

(** [s.split(sep)] for a non-empty [sep]: the text is cut at every
    occurrence of [sep], found left to right without overlap.  [skip]
    counts the characters of the occurrence that are still to be passed,
    [cur] is the part read so far. *)
Fixpoint split_go (sep : str) (skip : nat) (cur : str) (s : str) : list str :=
  match s with
  | [] => [cur]
  | c :: s' =>
      match skip with
      | S k => split_go sep k cur s'
      | O =>
          if startswith sep s
          then cur :: split_go sep (length sep - 1) [] s'
          else split_go sep O (cur ++ [c]) s'
      end
  end.

Definition split (s sep : str) : list str := split_go sep O [] s.

(** [sep.join(items)] *)
Fixpoint join (sep : str) (items : list str) : str :=
  match items with
  | [] => []
  | [x] => x
  | x :: rest => x ++ sep ++ join sep rest
  end.

(** Longest prefix of characters passing [p], and what follows it. *)
Fixpoint span (p : N -> bool) (s : str) : str * str :=
  match s with
  | [] => ([], [])
  | c :: s' =>
      if p c then let '(run, rest) := span p s' in (c :: run, rest)
      else ([], s)
  end.

End PyStr.
Import PyStr.

(** The interpreter's Unicode table restricted to ASCII texts: no code
    point from 128 on counts as alphanumeric. *)
Definition ascii_texts_only : N -> bool := fun _ => false.

(** ** config.py *)

Module AppConfig.

Definition DEFAULT_VOICE : str := lit "Kore".
Definition MAX_TEXT_LENGTH : nat := 5000.
Definition DEFAULT_VOICE_DELIMITER : str := lit "---".
Definition MIN_API_KEY_LENGTH : nat := 30.
Definition TEXT_WARNING_LENGTH : nat := 4500.
Definition MAX_DELIMITER_LENGTH : nat := 10.
Definition GEMINI_MODEL : str := lit "gemini-2.5-flash-preview-tts".

Definition VOICES : list str := map lit
  [ "Zephyr"; "Puck"; "Charon"; "Kore"; "Fenrir"; "Leda"; "Orus"; "Aoede";
    "Callirrhoe"; "Autonoe"; "Enceladus"; "Iapetus"; "Umbriel"; "Algieba";
    "Despina"; "Erinome"; "Algenib"; "Rasalgethi"; "Laomedeia"; "Achernar";
    "Alnilam"; "Schedar"; "Gacrux"; "Pulcherrima"; "Achird"; "Zubenelgenubi";
    "Vindemiatrix"; "Sadachbia"; "Sadaltager"; "Sulafat" ]%string.

Module Colors.
Definition WARNING : str := lit "#ffab00".
Definition DANGER : str := lit "#ff3d00".
Definition DARK_TEXT_MUTED : str := lit "#707070".
End Colors.

End AppConfig.

(** ** validation.py and the text parser *)

Record ValidationResult := mkResult {
  is_valid : bool;
  message : str
}.

(** A segment is a pair (voice, text). *)
Abbreviation segment := (str * str)%type.

(** A match of the voice-tag pattern: its span and its two groups. *)
Record tag_match := mkMatch {
  m_start : nat;
  m_end : nat;
  m_voice : str;
  m_inner : str
}.

Definition TAG_OPEN : str := lit "[voice:".
Definition TAG_CLOSE : str := lit "[/voice]".

Definition nonempty (s : str) : bool :=
  match s with [] => false | _ :: _ => true end.

Definition is_ascii_alnum (c : N) : bool :=
  in_range 48 57 c || in_range 65 90 c || in_range 97 122 c.

(** ** The remote backend and the workers' signals *)

Abbreviation bytes := (list Byte.byte).

(** The [speech_config] of a request: one prebuilt voice, or the speaker
    bindings of the multi-speaker configuration.  The bindings are built
    from a Python [set], so they carry no order. *)
Inductive speech_config :=
  | voice_config (voice_name : str)
  | multi_speaker_voice_config (speakers : gset str).

(** One call of [client.models.generate_content], with the credential of
    the client that issues it. *)
Record request := mkRequest {
  r_api_key : str;
  r_model : str;
  r_contents : str;
  r_speech : speech_config
}.

(** A part of a response: [inline_data.data], or no [inline_data]. *)
Inductive part :=
  | inline_data (data : bytes)
  | no_inline_data.

(** A candidate: [content.parts], or no [content]. *)
Inductive candidate :=
  | content (parts : list part)
  | no_content.

(** What a call does: it raises, or returns [response.candidates]. *)
Inductive call_result :=
  | raised (e : str)
  | returned (candidates : list candidate).

(** The signals of a worker thread. *)
Inductive signal :=
  | progress (m : str)
  | error (m : str)
  | finished (data : bytes).

(** The state a worker acts on: the signals it has emitted and the calls
    the backend has received, both oldest first. *)
Record wstate := mkState {
  signals : list signal;
  calls : list request
}.

(** A computation either returns or raises an exception with a text. *)
Inductive res (A : Type) :=
  | Ok (a : A)
  | Exn (e : str).
Arguments Ok {A} a.
Arguments Exn {A} e.

Definition M (A : Type) : Type := wstate -> res A * wstate.

#[global] Instance M_ret : MRet M := fun A a st => (Ok a, st).

#[global] Instance M_bind : MBind M := fun A B f c st =>
  match c st with
  | (Ok a, st') => f a st'
  | (Exn e, st') => (Exn e, st')
  end.

Definition raise {A : Type} (e : str) : M A := fun st => (Exn e, st).

Definition lift {A : Type} (r : res A) : M A := fun st => (r, st).

Definition emit (s : signal) : M unit := fun st =>
  (Ok tt, mkState (signals st ++ [s]) (calls st)).

(** [try: body except Exception as e: handler(e)] *)
Definition try_except (body : M unit) (handler : str -> M unit) : M unit :=
  fun st =>
    match body st with
    | (Ok tt, st') => (Ok tt, st')
    | (Exn e, st') => handler e st'
    end.

(** [not response.candidates or not response.candidates[0].content.parts] *)
Definition is_empty_response (candidates : list candidate) : res bool :=
  match candidates with
  | [] => Ok true
  | no_content :: _ => Exn (lit "'NoneType' object has no attribute 'parts'")
  | content [] :: _ => Ok true
  | content (_ :: _) :: _ => Ok false
  end.

(** [response.candidates[0].content.parts[0].inline_data.data]; a missing
    [data] is the empty buffer. *)
Definition first_audio_data (candidates : list candidate) : res bytes :=
  match candidates with
  | content (inline_data data :: _) :: _ => Ok data
  | content (no_inline_data :: _) :: _ =>
      Exn (lit "'NoneType' object has no attribute 'data'")
  | _ => Exn (lit "list index out of range")
  end.

(** The values the settings manager hands to [create_worker]. *)
Record settings := mkSettings {
  get_delimiter_enabled : bool;
  get_delimiter_string : str;
  get_delimiter_voice_sequence : list str;
  get_use_native_multispeaker : bool
}.

(** The two shapes of worker [create_worker] can return. *)
Inductive worker :=
  | TTSWorker (api_key text voice : str)
  | MultiVoiceTTSWorker (api_key : str) (segments : list segment)
      (use_native_multispeaker : bool).

Record TextToSpeechCore := mkCore {
  core_api_key : str;
  settings_manager : settings
}.

(** ** Sample inputs *)

Definition sample_key : str := lit "AIzaSyA-1234567890_abcdefghijklmnop".

Definition sample_audio : bytes := [Byte.x01; Byte.x02].

Definition answer_with (data : bytes) : call_result :=
  returned [content [inline_data data]].

(** A backend that answers every call with audio. *)
Definition backend_ok : list request -> request -> call_result :=
  fun _ _ => answer_with sample_audio.

(** A backend whose second call raises. *)
Definition backend_second_raises : list request -> request -> call_result :=
  fun history _ =>
    match length history with
    | 1%nat => raised (lit "timeout")
    | _ => answer_with sample_audio
    end.

(** A backend whose first answer has no candidates. *)
Definition backend_first_empty : list request -> request -> call_result :=
  fun history _ =>
    match length history with
    | O => returned []
    | _ => answer_with sample_audio
    end.

Definition three_segments : list segment :=
  [(lit "Kore", lit "one"); (lit "Puck", lit "two"); (lit "Kore", lit "three")].

Definition two_voices : list segment :=
  [(lit "Kore", lit "one"); (lit "Puck", lit "two")].

Definition short_key : str := lit "0123456789".

(** A well-formed key after one space. *)
Definition padded_key : str := lit " AIzaSyA-1234567890_abcdefghijklmnop".

Definition single_tag_text : str := lit "[voice:Kore]Hi[/voice]".

Definition tagged_with_delimiter : str := lit "[voice:Kore]A---B[/voice]".

Definition unclosed_tag_text : str := lit "[voice:Kore]A---B".

Definition delimiter_off : settings := mkSettings false (lit "---") [] true.

Definition delimiter_on : settings := mkSettings true (lit "---") [] true.

(** An export that adds no header. *)
Definition export_raw : bytes -> bytes := fun data => data.

(** A worker that has emitted nothing, on a backend that has received
    nothing. *)
Definition idle : wstate := mkState [] [].

(** A core with a well-formed key, delimiter mode disabled. *)
Definition plain_core : TextToSpeechCore := mkCore sample_key delimiter_off.

(** The text of the error of a client without key, in the runs below. *)
Definition no_key_error : str := lit "Missing key inputs argument!".

Section Pipeline.

(** [str.isalnum] of the interpreter's Unicode database on the code points
    from 128 on. *)
Variable unicode_alnum : N -> bool.

(** The regex class [\w] of a [str] pattern. *)
Definition is_word (c : N) : bool :=
  if c <? 128 then is_ascii_alnum c || (c =? 95) else unicode_alnum c.

(** *** Validator *)

(** The characters that the negated class of [validate_text] does not
    match: slash, [\w], [\s], the punctuation [.,!?;:-()], both quote
    marks, the guillemets, line feed, carriage return and the brackets. *)
Definition text_char_allowed (c : N) : bool :=
  (c =? 47) || is_word c || is_space c
  || existsb (N.eqb c) [46; 44; 33; 63; 59; 58; 45; 40; 41; 34; 39; 171; 187; 10; 13; 91; 93].

Definition validate_text (text : str) : ValidationResult :=
  if negb (nonempty text) || negb (nonempty (strip text)) then
    mkResult false (lit "Текст не может быть пустым")
  else
    let text_length := length (strip text) in
    if (AppConfig.MAX_TEXT_LENGTH <? text_length)%nat then
      mkResult false
        (lit "Текст слишком длинный. Максимум " ++ decimal AppConfig.MAX_TEXT_LENGTH
         ++ lit " символов, введено " ++ decimal text_length)
    else if existsb (fun c => negb (text_char_allowed c)) text then
      mkResult false
        (lit "Текст содержит недопустимые символы. Используйте только буквы, цифры и знаки препинания.")
    else mkResult true (lit "Текст корректен").

Definition validate_voice (voice_name : str) : ValidationResult :=
  if negb (nonempty voice_name) then mkResult false (lit "Голос не выбран")
  else if negb (bool_decide (voice_name ∈ AppConfig.VOICES)) then
    mkResult false
      (lit "Неподдерживаемый голос: " ++ voice_name ++ lit ". Доступные голоса: "
       ++ join (lit ", ") (take 5 AppConfig.VOICES) ++ lit "...")
  else mkResult true (lit "Голос " ++ voice_name ++ lit " поддерживается").

(** A character of the class [[A-Za-z0-9_-]]. *)
Definition is_key_char (c : N) : bool :=
  is_ascii_alnum c || (c =? 95) || (c =? 45).

(** [re.match(r'^[A-Za-z0-9_-]+$', s)]: a non-empty run of class
    characters that reaches the end of [s], or the line feed that ends it. *)
Definition key_pattern_matches (s : str) : bool :=
  let '(run, rest) := span is_key_char s in
  nonempty run && (bool_decide (rest = []) || bool_decide (rest = [10])).

Definition validate_api_key (api_key : str) : ValidationResult :=
  if negb (nonempty api_key) then
    mkResult false (lit "API ключ не может быть пустым")
  else
    let api_key := strip api_key in
    if (length api_key <? AppConfig.MIN_API_KEY_LENGTH)%nat then
      mkResult false
        (lit "API ключ слишком короткий. Минимум " ++ decimal AppConfig.MIN_API_KEY_LENGTH
         ++ lit " символов, введено " ++ decimal (length api_key))
    else if negb (startswith (lit "AIza") api_key) then
      mkResult false
        (lit "API ключ должен начинаться с 'AIza'. Проверьте правильность ключа.")
    else if negb (key_pattern_matches api_key) then
      mkResult false
        (lit "API ключ содержит недопустимые символы. Используйте только буквы, цифры, дефисы и подчеркивания.")
    else mkResult true (lit "API ключ корректен").

(** *** TextParser *)

Definition has_voice_tags (text : str) : bool := contains TAG_OPEN text.

(** A match of [\[voice:(\w+)\](.*?)\[/voice\]] (DOTALL) that starts
    at the head of [s]: voice, inner text and length of the match.  The
    greedy [\w+] can only stop at the end of the run of word characters,
    since [\]] is not one of them; the lazy [.*?] stops at the first
    closing tag. *)
Definition match_at (s : str) : option (str * str * nat) :=
  if startswith TAG_OPEN s then
    let '(name, rest) := span is_word (drop (length TAG_OPEN) s) in
    match name, rest with
    | _ :: _, 93 :: body =>
        match find TAG_CLOSE body with
        | Some k =>
            Some (name, take k body,
                  (length TAG_OPEN + length name + 1 + k + length TAG_CLOSE)%nat)
        | None => None
        end
    | _, _ => None
    end
  else None.

(** [re.finditer(pattern, text, re.DOTALL)]: the leftmost matches, without
    overlap.  [pos] is the index of the head of [s] in the text, [skip] the
    number of characters of the last match still to be passed. *)
Fixpoint finditer_go (pos skip : nat) (s : str) : list tag_match :=
  match s with
  | [] => []
  | _ :: s' =>
      match skip with
      | S k => finditer_go (S pos) k s'
      | O =>
          match match_at s with
          | Some (name, inner, len) =>
              mkMatch pos (pos + len) name inner
              :: finditer_go (S pos) (len - 1) s'
          | None => finditer_go (S pos) O s'
          end
      end
  end.

Definition finditer (text : str) : list tag_match := finditer_go O O text.

(** Body of the loop over the matches; the state is ([segments], [last_end]). *)
Definition tag_step (default_voice text : str)
    (st : list segment * nat) (m : tag_match) : list segment * nat :=
  let '(segments, last_end) := st in
  let segments :=
    if (last_end <? m_start m)%nat
    then segments ++ [(default_voice, strip (slice text last_end (m_start m)))]
    else segments in
  let voice_name := m_voice m in
  let segment_text := strip (m_inner m) in
  let segments :=
    if is_valid (validate_voice voice_name)
    then segments ++ [(voice_name, segment_text)]
    else segments ++ [(default_voice, segment_text)] in
  (segments, m_end m).

Definition parse_tags (text default_voice : str) : list segment :=
  let '(segments, last_end) :=
    fold_left (tag_step default_voice text) (finditer text) ([], O) in
  if (last_end <? length text)%nat
  then segments ++ [(default_voice, strip (drop last_end text))]
  else segments.

(** Body of the loop over the parts; the state is ([segments], [voice_index]). *)
Definition delimiter_step (delimiter_voice_sequence : list str) (default_voice : str)
    (st : list segment * nat) (part : str) : list segment * nat :=
  let '(segments, voice_index) := st in
  let stripped_part := strip part in
  if nonempty stripped_part then
    let current_voice :=
      nth (voice_index mod length delimiter_voice_sequence)%nat
          delimiter_voice_sequence default_voice in
    (segments ++ [(current_voice, stripped_part)], S voice_index)
  else (segments, voice_index).

Definition parse_delimiter (text default_voice delimiter_string : str)
    (delimiter_voice_sequence : list str) : list segment :=
  let delimiter_voice_sequence :=
    match delimiter_voice_sequence with
    | [] => [default_voice]
    | _ :: _ => delimiter_voice_sequence
    end in
  fst (fold_left (delimiter_step delimiter_voice_sequence default_voice)
         (split text delimiter_string) ([], O)).

Definition parse (text default_voice : str) (delimiter_enabled : bool)
    (delimiter_string : str) (delimiter_voice_sequence : list str)
    : list segment :=
  let segments :=
    if has_voice_tags text then parse_tags text default_voice
    else if delimiter_enabled && nonempty delimiter_string then
      parse_delimiter text default_voice delimiter_string delimiter_voice_sequence
    else [(default_voice, strip text)] in
  List.filter (fun s => nonempty (snd s)) segments.


(** *** The workers *)

(** The remote service: what it answers to a request, given the calls it
    has received before. *)
Variable backend : list request -> request -> call_result.

(** Whether [pydub] could be imported. *)
Variable PYDUB_AVAILABLE : bool.

(** [AudioSegment.export(format=wav)] on raw audio: the bytes of the WAV
    file.  Raw segments of one format are appended byte for byte. *)
Variable export_wav : bytes -> bytes.

(** The text of the [ValueError] that [genai.Client] raises when it is
    given no key. *)
Variable missing_key_message : str.

(** [genai.Client(api_key=...)], in a process whose environment names no
    key: the constructor raises for an empty key and otherwise builds the
    client, without a call to the service. *)
Definition genai_Client (api_key : str) : res unit :=
  if nonempty api_key then Ok tt else Exn missing_key_message.

Definition generate_content (r : request) : M (list candidate) := fun st =>
  let st' := mkState (signals st) (calls st ++ [r]) in
  match backend (calls st) r with
  | raised e => (Exn e, st')
  | returned candidates => (Ok candidates, st')
  end.

Definition single_voice_request (api_key voice text : str) : request :=
  mkRequest api_key AppConfig.GEMINI_MODEL text (voice_config voice).

Definition TTSWorker_run (api_key text voice : str) : M unit :=
  try_except
    (let api_validation := validate_api_key api_key in
     if negb (is_valid api_validation) then
       emit (error (lit "Ошибка API ключа: " ++ message api_validation))
     else
     let text_validation := validate_text text in
     if negb (is_valid text_validation) then
       emit (error (lit "Ошибка текста: " ++ message text_validation))
     else
     let voice_validation := validate_voice voice in
     if negb (is_valid voice_validation) then
       emit (error (lit "Ошибка голоса: " ++ message voice_validation))
     else
       emit (progress (lit "Инициализация TTS клиента..."));;
       lift (genai_Client api_key);;
       emit (progress (lit "Отправка запроса к API..."));;
       response ← generate_content (single_voice_request api_key voice text);
       emit (progress (lit "Обработка ответа..."));;
       empty ← lift (is_empty_response response);
       if (empty : bool) then emit (error (lit "Пустой ответ от API"))
       else
         audio_data ← lift (first_audio_data response);
         if bool_decide (audio_data = [])
         then emit (error (lit "Не удалось получить аудио данные"))
         else emit (finished audio_data))
    (fun e => emit (error (lit "Ошибка при генерации речи: " ++ e))).

Definition unique_speakers (segments : list segment) : gset str :=
  list_to_set (map fst segments).

Definition _can_use_native_multispeaker (segments : list segment) : bool :=
  (1 <? size (unique_speakers segments))%nat
  && (size (unique_speakers segments) <=? 2)%nat.

Definition sequential_progress (i total_segments : nat) (voice : str) : str :=
  lit "Генерация сегмента " ++ decimal (i + 1) ++ lit "/" ++ decimal total_segments
  ++ lit " (голос: " ++ voice ++ lit ")...".

Definition empty_segment_response (i : nat) : str :=
  lit "Пустой ответ от API для сегмента " ++ decimal (i + 1).

(** The loop of [_generate_sequential] from segment [i] on; [combined_audio]
    holds the audio of the segments before it. *)
Fixpoint sequential_loop (api_key : str) (total_segments i : nat)
    (segments : list segment) (combined_audio : bytes) : M bytes :=
  match segments with
  | [] => mret combined_audio
  | (voice, text) :: rest =>
      emit (progress (sequential_progress i total_segments voice));;
      response ← generate_content (single_voice_request api_key voice text);
      empty ← lift (is_empty_response response);
      if (empty : bool) then raise (empty_segment_response i)
      else
        audio_data ← lift (first_audio_data response);
        sequential_loop api_key total_segments (S i) rest
          (combined_audio ++ audio_data)
  end.

Definition _generate_sequential (api_key : str) (segments : list segment)
    : M unit :=
  if negb PYDUB_AVAILABLE then
    emit (error (lit "Для работы с несколькими голосами нужна библиотека pydub."))
  else
    try_except
      (lift (genai_Client api_key);;
       combined_audio ← sequential_loop api_key (length segments) O segments [];
       emit (finished (export_wav combined_audio)))
      (fun e =>
         emit (error (lit "Ошибка при генерации речи из нескольких сегментов: " ++ e))).

Definition native_prompt (segments : list segment) : str :=
  lit "TTS the following conversation:" ++ [10]
  ++ join [10] (map (fun '(voice, text) => voice ++ lit ": " ++ text) segments).

Definition native_request (api_key : str) (segments : list segment) : request :=
  mkRequest api_key AppConfig.GEMINI_MODEL (native_prompt segments)
    (multi_speaker_voice_config (unique_speakers segments)).

Definition _generate_native_multispeaker (api_key : str)
    (segments : list segment) : M unit :=
  try_except
    (emit (progress (lit "Генерация мультиспикерного аудио..."));;
     lift (genai_Client api_key);;
     response ← generate_content (native_request api_key segments);
     empty ← lift (is_empty_response response);
     if (empty : bool) then raise (lit "Пустой ответ от API")
     else
       audio_data ← lift (first_audio_data response);
       if bool_decide (audio_data = [])
       then raise (lit "Не удалось получить аудио данные")
       else emit (finished audio_data))
    (fun _ => _generate_sequential api_key segments).

Definition MultiVoiceTTSWorker_run (api_key : str) (segments : list segment)
    (use_native_multispeaker : bool) : M unit :=
  if use_native_multispeaker && _can_use_native_multispeaker segments
  then _generate_native_multispeaker api_key segments
  else _generate_sequential api_key segments.

(** [worker.start()] *)
Definition run (w : worker) : M unit :=
  match w with
  | TTSWorker api_key text voice => TTSWorker_run api_key text voice
  | MultiVoiceTTSWorker api_key segments use_native =>
      MultiVoiceTTSWorker_run api_key segments use_native
  end.

(** *** TextToSpeechCore *)

(** The constructor: [None] when it raises, [ValueError] for a rejected
    key and [ConnectionError] when the client cannot be built. *)
Definition TextToSpeechCore_init (api_key : str) (settings_manager : settings)
    : option TextToSpeechCore :=
  if negb (is_valid (validate_api_key api_key)) then None
  else
    match genai_Client api_key with
    | Ok _ => Some (mkCore api_key settings_manager)
    | Exn _ => None
    end.

Definition create_worker (self : TextToSpeechCore) (text voice : str) : worker :=
  let delimiter_enabled := get_delimiter_enabled (settings_manager self) in
  let delimiter_string := get_delimiter_string (settings_manager self) in
  let delimiter_voice_sequence :=
    get_delimiter_voice_sequence (settings_manager self) in
  if delimiter_enabled || has_voice_tags text then
    let segments :=
      parse text voice delimiter_enabled delimiter_string
        delimiter_voice_sequence in
    let use_native := get_use_native_multispeaker (settings_manager self) in
    MultiVoiceTTSWorker (core_api_key self) segments use_native
  else TTSWorker (core_api_key self) text voice.

Definition validate_request (text voice : str) : ValidationResult :=
  let text_validation := validate_text text in
  if negb (is_valid text_validation) then text_validation
  else
    let voice_validation := validate_voice voice in
    if negb (is_valid voice_validation) then voice_validation
    else mkResult true (lit "Запрос валиден").

(** *** Reference definitions, worded as the specification *)

(** The credential test on an already trimmed string: length floor,
    prefix and character set. *)
Definition well_formed_key (k : str) : bool :=
  (AppConfig.MIN_API_KEY_LENGTH <=? length k)%nat
  && startswith (lit "AIza") k
  && forallb is_key_char k.

(** The voice of a tag: its identifier when the catalog has it, the
    default voice otherwise. *)
Definition tag_voice (default_voice name : str) : str :=
  if bool_decide (name ∈ AppConfig.VOICES) then name else default_voice.

(** Tag mode: before every tag the untagged text since the previous one,
    then the tagged text, and after the last tag the rest of the text. *)
Fixpoint tag_mode_spans (default_voice text : str) (last_end : nat)
    (ms : list tag_match) : list segment :=
  match ms with
  | [] => [(default_voice, strip (drop last_end text))]
  | m :: ms' =>
      (default_voice, strip (slice text last_end (m_start m)))
      :: (tag_voice default_voice (m_voice m), strip (m_inner m))
      :: tag_mode_spans default_voice text (m_end m) ms'
  end.

Definition tag_mode_spec (text default_voice : str) : list segment :=
  List.filter (fun s => nonempty (snd s))
    (tag_mode_spans default_voice text O (finditer text)).

(** Delimiter mode: the non-empty trimmed parts, the part of rank [k]
    with the voice of index [k mod length] of the sequence. *)
Definition delimiter_mode_spec (text default_voice delimiter_string : str)
    (delimiter_voice_sequence : list str) : list segment :=
  let voices :=
    match delimiter_voice_sequence with
    | [] => [default_voice]
    | _ :: _ => delimiter_voice_sequence
    end in
  imap (fun k part => (nth (k mod length voices)%nat voices default_voice, part))
    (List.filter nonempty (map strip (split text delimiter_string))).

(** The requests of the sequential path, one per segment. *)
Definition sequential_requests (api_key : str) (segments : list segment)
    : list request :=
  map (fun '(voice, text) => single_voice_request api_key voice text) segments.

(** The answer to the call for segment [k] of a sequential run started in
    state [st], the calls for the segments before it having been made. *)
Definition segment_answer (api_key : str) (segments : list segment)
    (st : wstate) (k : nat) : option call_result :=
  r ← sequential_requests api_key segments !! k;
  Some (backend (calls st ++ take k (sequential_requests api_key segments)) r).

(** The progress texts of the segments [i], [i+1], ... of a sequential run. *)
Definition sequential_progresses (total_segments i : nat)
    (segments : list segment) : list signal :=
  imap (fun k '(voice, _) =>
          progress (sequential_progress (i + k) total_segments voice))
    segments.

Definition is_finished (s : signal) : bool :=
  match s with finished _ => true | _ => false end.

Definition error_messages (sigs : list signal) : list str :=
  omap (fun s => match s with error m => Some m | _ => None end) sigs.

(** The final filter of [parse]. *)
Definition keep (segments : list segment) : list segment :=
  List.filter (fun s => nonempty (snd s)) segments.

(** The failures of the native call: the call raises, the response is
    empty, or it carries no audio. *)
Inductive native_failure : call_result -> Prop :=
  | remote_error e : native_failure (raised e)
  | no_candidates : native_failure (returned [])
  | candidate_without_content cs : native_failure (returned (no_content :: cs))
  | content_without_parts cs : native_failure (returned (content [] :: cs))
  | part_without_inline_data ps cs :
      native_failure (returned (content (no_inline_data :: ps) :: cs))
  | empty_audio_data ps cs :
      native_failure (returned (content (inline_data [] :: ps) :: cs)).

(** The audio of an answer whose first candidate has a first part with
    inline data. *)
Definition answer_audio (r : call_result) : option bytes :=
  match r with
  | returned (content (inline_data data :: _) :: _) => Some data
  | _ => None
  end.

(** The failures of the call for the segment of index [i] in the
    sequential path, each with the text of the exception it ends in. *)
Inductive segment_failure (i : nat) : call_result -> str -> Prop :=
  | segment_call_raised e : segment_failure i (raised e) e
  | segment_no_candidates :
      segment_failure i (returned []) (empty_segment_response i)
  | segment_no_parts cs :
      segment_failure i (returned (content [] :: cs)) (empty_segment_response i)
  | segment_no_content cs :
      segment_failure i (returned (no_content :: cs))
        (lit "'NoneType' object has no attribute 'parts'")
  | segment_no_inline_data ps cs :
      segment_failure i (returned (content (no_inline_data :: ps) :: cs))
        (lit "'NoneType' object has no attribute 'data'").

(** A text that its own trim leaves unchanged. *)
Definition trimmed (s : str) : Prop := strip s = s.

(** The matches [ms] lie in [text] from index [from] on, in order and
    without overlap, and each one spans a tag with its two groups. *)
Fixpoint well_placed (text : str) (from : nat) (ms : list tag_match) : Prop :=
  match ms with
  | [] => True
  | m :: ms' =>
      (from <= m_start m)%nat
      /\ (m_end m <= length text)%nat
      /\ m_voice m <> []
      /\ forallb is_word (m_voice m) = true
      /\ slice text (m_start m) (m_end m)
         = TAG_OPEN ++ m_voice m ++ [93] ++ m_inner m ++ TAG_CLOSE
      /\ well_placed text (m_end m) ms'
  end.

Definition is_progress (s : signal) : bool :=
  match s with progress _ => true | _ => false end.

(** The signals that end a request: [error] and [finished]. *)
Definition is_terminal (s : signal) : bool := negb (is_progress s).

(** *** settings_manager.py: the voice and delimiter settings *)

(** [AppConfig.validate_voice]: the voice, or the default one when the
    catalog does not have it. *)
Definition AppConfig_validate_voice (voice : str) : str :=
  if bool_decide (voice ∈ AppConfig.VOICES) then voice
  else AppConfig.DEFAULT_VOICE.

(** What [QSettings] holds by key: the strings and the flags, each read
    back as it was written, and the integers of the window. *)
Record qsettings := mkQSettings {
  q_strings : gmap str str;
  q_flags : gmap str bool;
  q_ints : gmap str Z
}.

Definition SettingsManager_get_last_voice (q : qsettings) : str :=
  AppConfig_validate_voice
    (default AppConfig.DEFAULT_VOICE (q_strings q !! lit "last_voice")).

(** The new settings, and the value returned. *)
Definition SettingsManager_set_last_voice (q : qsettings) (voice : str)
    : qsettings * bool :=
  if negb (is_valid (validate_voice voice)) then (q, false)
  else (mkQSettings (<[lit "last_voice" := voice]> (q_strings q)) (q_flags q)
          (q_ints q),
        true).

Definition SettingsManager_get_delimiter_enabled (q : qsettings) : bool :=
  default false (q_flags q !! lit "delimiter_enabled").

Definition SettingsManager_set_delimiter_enabled (q : qsettings)
    (enabled : bool) : qsettings :=
  mkQSettings (q_strings q) (<[lit "delimiter_enabled" := enabled]> (q_flags q))
    (q_ints q).

Definition SettingsManager_get_delimiter_string (q : qsettings) : str :=
  default AppConfig.DEFAULT_VOICE_DELIMITER
    (q_strings q !! lit "delimiter_string").

Definition SettingsManager_set_delimiter_string (q : qsettings)
    (delimiter : str) : qsettings :=
  if nonempty delimiter
     && (length delimiter <=? AppConfig.MAX_DELIMITER_LENGTH)%nat
  then mkQSettings (<[lit "delimiter_string" := delimiter]> (q_strings q))
         (q_flags q) (q_ints q)
  else q.

Definition SettingsManager_get_delimiter_voice_sequence (q : qsettings)
    : list str :=
  let voices_str :=
    default [] (q_strings q !! lit "delimiter_voice_sequence") in
  if nonempty voices_str then
    let voices :=
      map strip
        (List.filter (fun v => nonempty (strip v))
           (split voices_str (lit ","))) in
    let valid_voices :=
      List.filter (fun v => is_valid (validate_voice v)) voices in
    match valid_voices with
    | _ :: _ => valid_voices
    | [] => [AppConfig.DEFAULT_VOICE]
    end
  else [AppConfig.DEFAULT_VOICE].

Definition SettingsManager_set_delimiter_voice_sequence (q : qsettings)
    (voices : list str) : qsettings :=
  let valid_voices :=
    List.filter (fun v => is_valid (validate_voice v)) voices in
  match valid_voices with
  | _ :: _ =>
      mkQSettings
        (<[lit "delimiter_voice_sequence" := join (lit ",") valid_voices]>
           (q_strings q))
        (q_flags q) (q_ints q)
  | [] =>
      mkQSettings
        (<[lit "delimiter_voice_sequence" := AppConfig.DEFAULT_VOICE]>
           (q_strings q))
        (q_flags q) (q_ints q)
  end.

Definition SettingsManager_get_use_native_multispeaker (q : qsettings) : bool :=
  default false (q_flags q !! lit "use_native_multispeaker").

Definition SettingsManager_set_use_native_multispeaker (q : qsettings)
    (enabled : bool) : qsettings :=
  mkQSettings (q_strings q)
    (<[lit "use_native_multispeaker" := enabled]> (q_flags q)) (q_ints q).

(** What [create_worker] reads from the settings manager. *)
Definition settings_read (q : qsettings) : settings :=
  mkSettings (SettingsManager_get_delimiter_enabled q)
    (SettingsManager_get_delimiter_string q)
    (SettingsManager_get_delimiter_voice_sequence q)
    (SettingsManager_get_use_native_multispeaker q).

(** *** modern_tts.py: the generate action *)

(** What the action does: an error box, or a worker started. *)
Inductive ui_outcome :=
  | show_error (m : str)
  | started (w : worker).

(** [_generate_speech], from the text of the input field and the voice of
    the selector. *)
Definition _generate_speech (tts_core : option TextToSpeechCore)
    (text_input voice : str) : ui_outcome :=
  match tts_core with
  | None =>
      show_error
        (lit "TTS не инициализирован. Необходимо настроить API ключ."
         ++ [10; 10]
         ++ lit "Откройте настройки и добавьте действующий API ключ.")
  | Some core =>
      let text := strip text_input in
      let validation := validate_request text voice in
      if negb (is_valid validation) then show_error (message validation)
      else started (create_worker core text voice)
  end.

(** A request whose credential and voices pass the validators. *)
Definition request_validated (r : request) : Prop :=
  is_valid (validate_api_key (r_api_key r)) = true
  /\ match r_speech r with
     | voice_config v => is_valid (validate_voice v) = true
     | multi_speaker_voice_config speakers =>
         forall v, v ∈ speakers -> is_valid (validate_voice v) = true
     end.

(** A delimiter [set_delimiter_string] stores. *)
Definition acceptable_delimiter (delimiter : str) : bool :=
  nonempty delimiter
  && (length delimiter <=? AppConfig.MAX_DELIMITER_LENGTH)%nat.

(** *** validation.py: file names and the length counter *)

(** A character of the class [[<>:dq|?*]], [dq] being the double quote. *)
Definition is_forbidden_filename_char (c : N) : bool :=
  existsb (N.eqb c) [60; 62; 58; 34; 124; 63; 42].

(** A character of the class [[_\s]]. *)
Definition is_filler (c : N) : bool := (c =? 95) || is_space c.

(** [re.sub] of every forbidden character by an underscore. *)
Definition replace_forbidden (s : str) : str :=
  map (fun c => if is_forbidden_filename_char c then 95 else c) s.

(** [re.sub] of every maximal run of fillers by one underscore; [in_run]
    tells that the character before was a filler. *)
Fixpoint collapse_fillers (in_run : bool) (s : str) : str :=
  match s with
  | [] => []
  | c :: s' =>
      if is_filler c
      then if in_run then collapse_fillers true s'
           else 95 :: collapse_fillers true s'
      else c :: collapse_fillers false s'
  end.

Fixpoint lstrip_underscores (s : str) : str :=
  match s with
  | [] => []
  | c :: s' => if c =? 95 then lstrip_underscores s' else s
  end.

Fixpoint rstrip_underscores (s : str) : str :=
  match s with
  | [] => []
  | c :: s' =>
      match rstrip_underscores s' with
      | [] => if c =? 95 then [] else [c]
      | r => c :: r
      end
  end.

(** [s.strip('_')] *)
Definition strip_underscores (s : str) : str :=
  rstrip_underscores (lstrip_underscores s).

Definition sanitize_filename (filename : str) : str :=
  let sanitized := replace_forbidden filename in
  let sanitized := collapse_fillers false sanitized in
  let sanitized := strip_underscores sanitized in
  if negb (nonempty sanitized) then lit "audio_file" else sanitized.

(** No white space, and no underscore right after an underscore;
    [after_underscore] tells that the character before was one. *)
Fixpoint tidy (after_underscore : bool) (s : str) : bool :=
  match s with
  | [] => true
  | c :: s' =>
      negb (is_space c) && negb (after_underscore && (c =? 95))
      && tidy (c =? 95) s'
  end.

(** The status text and the colour of the character counter. *)
Definition get_text_length_status (text : str) : str * str :=
  if negb (nonempty text) then
    (lit "Текст пустой", AppConfig.Colors.DARK_TEXT_MUTED)
  else
    let length := length text in
    if (AppConfig.MAX_TEXT_LENGTH <? length)%nat then
      (lit "Превышен лимит: " ++ decimal length ++ lit "/"
       ++ decimal AppConfig.MAX_TEXT_LENGTH,
       AppConfig.Colors.DANGER)
    else if (AppConfig.TEXT_WARNING_LENGTH <? length)%nat then
      (lit "Близко к лимиту: " ++ decimal length ++ lit "/"
       ++ decimal AppConfig.MAX_TEXT_LENGTH,
       AppConfig.Colors.WARNING)
    else (lit "Символов: " ++ decimal length, AppConfig.Colors.DARK_TEXT_MUTED).

(** *** audio_manager.py: the player *)

(** The fields of [AudioPlayer] the code reads: the audio held, the
    temporary file in use, the files its [TempFileManager] tracks and the
    source of the media player. *)
Record AudioPlayer := mkPlayer {
  current_audio_data : option bytes;
  current_temp_file : option str;
  temp_files : list str;
  player_source : option str
}.

Definition AudioPlayer_init : AudioPlayer := mkPlayer None None [] None.

(** [load_audio_data]; [temp_path] is what [create_temp_file] does (a new
    path, or the text of the error it raises) and [saved] what
    [save_wav_file] returns for that path. *)
Definition load_audio_data (self : AudioPlayer) (audio_data : bytes)
    (temp_path : res str) (saved : ValidationResult)
    : AudioPlayer * ValidationResult :=
  let self :=
    mkPlayer (Some audio_data) (current_temp_file self) (temp_files self)
      (player_source self) in
  match temp_path with
  | Exn e =>
      (self,
       mkResult false
         (lit "Ошибка загрузки аудио данных: "
          ++ lit "Не удалось создать временный файл: " ++ e))
  | Ok path =>
      let self :=
        mkPlayer (current_audio_data self) (current_temp_file self)
          (temp_files self ++ [path]) (player_source self) in
      if negb (is_valid saved) then (self, saved)
      else
        (mkPlayer (current_audio_data self) (Some path) (temp_files self)
           (Some path),
         mkResult true (lit "Аудио готово к воспроизведению"))
  end.

(** [play], the media player starting without an error. *)
Definition AudioPlayer_play (self : AudioPlayer) : ValidationResult :=
  match current_audio_data self with
  | None | Some [] => mkResult false (lit "Нет загруженных аудио данных")
  | Some (_ :: _) => mkResult true (lit "Воспроизведение начато")
  end.

(** [cleanup]: the player after it, and the files it asks to remove. *)
Definition AudioPlayer_cleanup (self : AudioPlayer) : AudioPlayer * list str :=
  (mkPlayer None None [] (player_source self), temp_files self).

(** One call of [load_audio_data] with what the file system answers. *)
Record load_attempt := mkAttempt {
  attempt_audio : bytes;
  attempt_temp_path : res str;
  attempt_saved : ValidationResult
}.

Definition load_all (self : AudioPlayer) (attempts : list load_attempt)
    : AudioPlayer :=
  fold_left
    (fun player a =>
       fst (load_audio_data player (attempt_audio a) (attempt_temp_path a)
              (attempt_saved a)))
    attempts self.

(** The paths [create_temp_file] returned during the attempts. *)
Definition created_paths (attempts : list load_attempt) : list str :=
  omap (fun a => match attempt_temp_path a with Ok p => Some p | Exn _ => None end)
    attempts.

(** ** Facts about strings *)

Ltac bool_to_prop :=
  repeat first
    [ rewrite orb_true_iff in * | rewrite andb_true_iff in *
    | rewrite N.leb_le in * | rewrite N.eqb_eq in * | rewrite N.ltb_lt in * ].

Lemma startswith_spec (p s : str) :
  startswith p s = true <-> exists r, s = p ++ r.
Proof.
  revert s; induction p as [|a p IH]; intros s; simpl.
  - split; [intros _; by exists s | done].
  - destruct s as [|b s].
    + split; [done | by intros [r Hr]].
    + rewrite andb_true_iff, N.eqb_eq, IH. split.
      * intros [-> [r ->]]. by exists r.
      * intros [r Hr]. injection Hr as -> ->. eauto.
Qed.

Lemma contains_spec (needle s : str) :
  contains needle s = true <-> exists pre post, s = pre ++ needle ++ post.
Proof.
  induction s as [|c s IH]; simpl.
  - rewrite orb_false_r, startswith_spec. split.
    + intros [r Hr]. by exists [], r.
    + intros (pre & post & H). destruct pre; [by exists post|done].
  - rewrite orb_true_iff, startswith_spec, IH. split.
    + intros [[r Hr] | (pre & post & ->)].
      * by exists [], r.
      * by exists (c :: pre), post.
    + intros (pre & post & H). destruct pre as [|x pre].
      * left. by exists post.
      * right. injection H as -> ->. by exists pre, post.
Qed.

Lemma lstrip_app_nonspace (a b : str) (c : N) :
  is_space c = false -> lstrip (a ++ c :: b) = lstrip a ++ c :: b.
Proof.
  intros Hc. induction a as [|x a IH]; simpl.
  - by rewrite Hc.
  - by destruct (is_space x).
Qed.

Lemma rstrip_app_nonspace (a b : str) (c : N) :
  is_space c = false -> rstrip (a ++ c :: b) = a ++ c :: rstrip b.
Proof.
  intros Hc. unfold rstrip.
  rewrite reverse_app, reverse_cons, <- app_assoc. simpl.
  rewrite lstrip_app_nonspace by done.
  rewrite reverse_app, reverse_cons, reverse_involutive.
  by rewrite <- app_assoc.
Qed.

Lemma lstrip_length (s : str) : (length (lstrip s) <= length s)%nat.
Proof. induction s as [|c s IH]; simpl; [lia|]. destruct (is_space c); simpl; lia. Qed.

Lemma strip_length (s : str) : (length (strip s) <= length s)%nat.
Proof.
  unfold strip, rstrip. rewrite length_reverse.
  etrans; [apply lstrip_length|]. rewrite length_reverse. apply lstrip_length.
Qed.

Lemma strip_nil : strip [] = [].
Proof. reflexivity. Qed.

Lemma lstrip_head (s : str) (c : N) (r : str) :
  lstrip s = c :: r -> is_space c = false.
Proof.
  induction s as [|x s IH]; simpl; [done|].
  destruct (is_space x) eqn:Hx; [done|]. by intros [= -> _].
Qed.

(** A trimmed string does not end with white space. *)
Lemma strip_last (s a : str) (c : N) :
  strip s = a ++ [c] -> is_space c = false.
Proof.
  unfold strip, rstrip. intros H.
  apply (f_equal reverse) in H.
  rewrite reverse_involutive, reverse_app in H. simpl in H.
  by apply lstrip_head in H.
Qed.

Lemma lstrip_no_space (s : str) :
  forallb (fun c => negb (is_space c)) s = true -> lstrip s = s.
Proof. destruct s as [|c s]; simpl; [done|]. by destruct (is_space c). Qed.

Lemma strip_no_space (s : str) :
  forallb (fun c => negb (is_space c)) s = true -> strip s = s.
Proof.
  intros H. unfold strip, rstrip. rewrite (lstrip_no_space s H).
  rewrite lstrip_no_space; [apply reverse_involutive|].
  rewrite forallb_forall in *. intros c Hc. apply H.
  rewrite <- list_elem_of_In in *. by rewrite elem_of_reverse in Hc.
Qed.

Lemma key_char_not_space (c : N) : is_key_char c = true -> is_space c = false.
Proof.
  intros H. apply not_true_is_false. intros Hs.
  unfold is_key_char, is_ascii_alnum, is_space, in_range in *.
  bool_to_prop. lia.
Qed.

Lemma span_spec (p : N -> bool) (s run rest : str) :
  span p s = (run, rest) ->
  s = run ++ rest /\ forallb p run = true
  /\ match rest with [] => True | c :: _ => p c = false end.
Proof.
  revert run rest; induction s as [|c s IH]; intros run rest; simpl.
  - by intros [= <- <-].
  - destruct (p c) eqn:Hc.
    + destruct (span p s) as [run' rest'] eqn:Hs. intros [= <- <-].
      destruct (IH _ _ eq_refl) as (-> & Hrun & Hrest).
      simpl. by rewrite Hc, Hrun.
    + intros [= <- <-]. simpl. by rewrite Hc.
Qed.

(** ** The credential check *)

Lemma key_pattern_trimmed (k : str) :
  key_pattern_matches (strip k)
  = nonempty (strip k) && forallb is_key_char (strip k).
Proof.
  unfold key_pattern_matches.
  destruct (span is_key_char (strip k)) as [run rest] eqn:Hspan.
  destruct (span_spec _ _ _ _ Hspan) as (Hs & Hrun & Hrest).
  rewrite Hs. destruct rest as [|c rest].
  - rewrite app_nil_r, Hrun. by rewrite bool_decide_eq_true_2.
  - rewrite (bool_decide_eq_false_2 (c :: rest = [])) by done.
    rewrite forallb_app. cbn [forallb orb]. rewrite Hrest, !andb_false_r.
    destruct (decide (c :: rest = [10])) as [Heq|Hne].
    + injection Heq as -> ->. by apply strip_last in Hs.
    + rewrite (bool_decide_eq_false_2 _ Hne). by rewrite andb_false_r.
Qed.

Lemma well_formed_key_nonempty (k : str) :
  (AppConfig.MIN_API_KEY_LENGTH <=? length k)%nat = true -> nonempty k = true.
Proof. destruct k; [done|done]. Qed.

(** C9 (amended).  [validate_api_key] trims the credential first: it
    accepts exactly the strings whose trimmed form has at least 30
    characters, starts with AIza and is made of letters, digits, hyphens
    and underscores.  Hence every 10-character string is rejected, and
    every 35-character string that starts with AIza and is made of those
    characters passes. *)
Theorem validate_api_key_checks_trimmed_key (k : str) :
  is_valid (validate_api_key k) = well_formed_key (strip k)
  /\ (length k = 10%nat -> is_valid (validate_api_key k) = false)
  /\ (length k = 35%nat -> startswith (lit "AIza") k = true ->
      forallb is_key_char k = true ->
      is_valid (validate_api_key k) = true).
Proof.
  assert (Hmain : is_valid (validate_api_key k) = well_formed_key (strip k)).
  { unfold validate_api_key, well_formed_key.
    destruct k as [|c k]; [reflexivity|].
    cbn [nonempty negb]. set (s := strip (c :: k)).
    destruct (Nat.ltb_spec (length s) AppConfig.MIN_API_KEY_LENGTH) as [Hlt|Hge].
    - cbn [is_valid]. symmetry.
      rewrite (proj2 (Nat.leb_gt _ _) Hlt). reflexivity.
    - rewrite (proj2 (Nat.leb_le _ _) Hge). cbn [andb].
      destruct (startswith (lit "AIza") s) eqn:Hpre; cbn [negb is_valid andb];
        [|reflexivity].
      unfold s. rewrite key_pattern_trimmed. fold s.
      rewrite (well_formed_key_nonempty s) by by apply Nat.leb_le.
      cbn [andb]. by destruct (forallb is_key_char s). }
  split; [exact Hmain|]. split.
  - intros Hlen. rewrite Hmain. unfold well_formed_key.
    pose proof (strip_length k) as Hs.
    rewrite (proj2 (Nat.leb_gt _ _)); [done|].
    unfold AppConfig.MIN_API_KEY_LENGTH. lia.
  - intros Hlen Hpre Hchars. rewrite Hmain.
    rewrite strip_no_space.
    + unfold well_formed_key. rewrite Hlen, Hpre, Hchars. reflexivity.
    + rewrite forallb_forall in *. intros c Hc.
      by rewrite (key_char_not_space c (Hchars c Hc)).
Qed.

(** ** Choice of the strategy *)

Ltac run_monad :=
  unfold try_except, mbind, M_bind, mret, M_ret, raise, lift, emit,
    generate_content;
  cbn [signals calls].

(** A client is built from every key that is not empty, so from every key
    that passes the check. *)
Lemma genai_Client_built (api_key : str) :
  api_key <> [] -> genai_Client api_key = Ok tt.
Proof. unfold genai_Client. by destruct api_key. Qed.

Lemma valid_key_nonempty (api_key : str) :
  is_valid (validate_api_key api_key) = true -> api_key <> [].
Proof. intros H ->. vm_compute in H. discriminate H. Qed.

Lemma can_use_native_iff (segments : list segment) :
  _can_use_native_multispeaker segments
  = bool_decide (size (unique_speakers segments) = 2%nat).
Proof.
  unfold _can_use_native_multispeaker.
  destruct (Nat.ltb_spec 1 (size (unique_speakers segments)));
    destruct (Nat.leb_spec (size (unique_speakers segments)) 2);
    cbn [andb]; symmetry;
    first [ apply bool_decide_eq_true_2; lia
          | apply bool_decide_eq_false_2; lia ].
Qed.

(** C4.  The native strategy is taken exactly when native generation is
    preferred and the segments name exactly two distinct voices; in every
    other case the worker runs the sequential path. *)
Theorem native_selected_iff_two_voices (api_key : str)
    (segments : list segment) (use_native_multispeaker : bool) :
  (use_native_multispeaker && _can_use_native_multispeaker segments = true
   <-> use_native_multispeaker = true
       /\ size (unique_speakers segments) = 2%nat)
  /\ MultiVoiceTTSWorker_run api_key segments use_native_multispeaker
     = if use_native_multispeaker
          && bool_decide (size (unique_speakers segments) = 2%nat)
       then _generate_native_multispeaker api_key segments
       else _generate_sequential api_key segments.
Proof.
  unfold MultiVoiceTTSWorker_run. rewrite can_use_native_iff. split; [|done].
  rewrite andb_true_iff, bool_decide_eq_true. done.
Qed.

(** ** The native path *)

Lemma native_answer_cases (r : call_result) :
  native_failure r
  \/ exists data ps cs,
       r = returned (content (inline_data data :: ps) :: cs) /\ data <> [].
Proof.
  destruct r as [e|[|[[|[data|] ps]|] cs]]; try (left; constructor).
  destruct data as [|b data]; [left; constructor|].
  right. by exists (b :: data), ps, cs.
Qed.

Lemma native_failure_run (api_key : str) (segments : list segment)
    (st : wstate) :
  api_key <> [] ->
  native_failure (backend (calls st) (native_request api_key segments)) ->
  _generate_native_multispeaker api_key segments st
  = _generate_sequential api_key segments
      (mkState
         (signals st ++ [progress (lit "Генерация мультиспикерного аудио...")])
         (calls st ++ [native_request api_key segments])).
Proof.
  intros Hkey Hfail. unfold _generate_native_multispeaker.
  rewrite (genai_Client_built _ Hkey). run_monad.
  destruct Hfail; reflexivity.
Qed.

(** Without a key no client is built: the native path makes no call and
    goes on with the sequential path. *)
Lemma native_client_error_run (segments : list segment) (st : wstate) :
  _generate_native_multispeaker [] segments st
  = _generate_sequential [] segments
      (mkState
         (signals st ++ [progress (lit "Генерация мультиспикерного аудио...")])
         (calls st)).
Proof. reflexivity. Qed.

Lemma native_success_run (api_key : str) (segments : list segment)
    (st : wstate) (data : bytes) (ps : list part) (cs : list candidate) :
  api_key <> [] ->
  backend (calls st) (native_request api_key segments)
  = returned (content (inline_data data :: ps) :: cs) ->
  data <> [] ->
  _generate_native_multispeaker api_key segments st
  = (Ok tt,
     mkState
       (signals st ++ [progress (lit "Генерация мультиспикерного аудио...")]
        ++ [finished data])
       (calls st ++ [native_request api_key segments])).
Proof.
  intros Hkey Hr Hdata. unfold _generate_native_multispeaker.
  rewrite (genai_Client_built _ Hkey). run_monad.
  rewrite Hr. cbn [is_empty_response first_audio_data].
  rewrite (bool_decide_eq_false_2 _ Hdata). cbn [signals calls].
  by rewrite <- app_assoc.
Qed.

(** C5.  A failure of the native attempt (no client, remote error, empty
    response, missing audio) is never reported by the native path: the
    worker goes on with the sequential path on the same segments, so an
    error signal that follows a native attempt was emitted by that
    sequential run.  A native answer that carries audio ends the request
    with that audio. *)
Theorem native_failure_falls_back_to_sequential (api_key : str)
    (segments : list segment) (st : wstate) :
  let r := native_request api_key segments in
  let asked :=
    mkState
      (signals st ++ [progress (lit "Генерация мультиспикерного аудио...")])
      (calls st) in
  let called := mkState (signals asked) (calls st ++ [r]) in
  (api_key <> [] -> native_failure (backend (calls st) r) ->
   _generate_native_multispeaker api_key segments st
   = _generate_sequential api_key segments called)
  /\ (api_key = [] ->
      _generate_native_multispeaker api_key segments st
      = _generate_sequential api_key segments asked)
  /\ (forall data ps cs,
        api_key <> [] ->
        backend (calls st) r = returned (content (inline_data data :: ps) :: cs) ->
        data <> [] ->
        _generate_native_multispeaker api_key segments st
        = (Ok tt, mkState (signals called ++ [finished data]) (calls called)))
  /\ (forall m,
        error m ∈ signals (snd (_generate_native_multispeaker api_key segments st)) ->
        error m ∈ signals st
        \/ exists st',
             (st' = asked \/ st' = called)
             /\ _generate_native_multispeaker api_key segments st
                = _generate_sequential api_key segments st'
             /\ error m ∈ signals (snd (_generate_sequential api_key segments st'))).
Proof.
  intros r asked called. split; [apply native_failure_run|].
  split; [intros ->; apply native_client_error_run|].
  split.
  - intros data ps cs Hkey Hr Hdata.
    rewrite (native_success_run _ _ _ _ _ _ Hkey Hr Hdata).
    subst called asked. cbn [signals calls]. by rewrite <- app_assoc.
  - intros m Hm. destruct (decide (api_key = [])) as [->|Hkey].
    { right. exists asked. split; [by left|].
      split; [apply native_client_error_run|].
      by rewrite native_client_error_run in Hm. }
    destruct (native_answer_cases (backend (calls st) r))
      as [Hfail|(data & ps & cs & Hr & Hdata)].
    + right. exists called. split; [by right|].
      split; [by apply native_failure_run|].
      by rewrite (native_failure_run _ _ _ Hkey Hfail) in Hm.
    + left. rewrite (native_success_run _ _ _ _ _ _ Hkey Hr Hdata) in Hm.
      cbn [snd signals] in Hm.
      rewrite !elem_of_app, !list_elem_of_singleton in Hm.
      by destruct Hm as [?|[?|?]].
Qed.

(** ** The sequential path *)

Lemma segment_answer_head (api_key voice text : str) (rest : list segment)
    (st : wstate) :
  segment_answer api_key ((voice, text) :: rest) st 0
  = Some (backend (calls st) (single_voice_request api_key voice text)).
Proof. unfold segment_answer. simpl. by rewrite app_nil_r. Qed.

Lemma segment_answer_tail (api_key voice text : str) (rest : list segment)
    (st : wstate) (p : signal) (j : nat) :
  segment_answer api_key ((voice, text) :: rest) st (S j)
  = segment_answer api_key rest
      (mkState (signals st ++ [p])
         (calls st ++ [single_voice_request api_key voice text])) j.
Proof. unfold segment_answer. simpl. by rewrite <- app_assoc. Qed.

Lemma sequential_progresses_cons (total_segments i : nat) (voice text : str)
    (rest : list segment) :
  sequential_progresses total_segments i ((voice, text) :: rest)
  = progress (sequential_progress i total_segments voice)
    :: sequential_progresses total_segments (S i) rest.
Proof.
  unfold sequential_progresses. rewrite imap_cons, Nat.add_0_r. f_equal.
  apply imap_ext. intros k [v t] _. simpl. by rewrite Nat.add_succ_r.
Qed.

(** One turn of the loop whose answer carries audio. *)
Lemma sequential_loop_step (api_key : str) (total_segments i : nat)
    (voice text : str) (rest : list segment) (combined_audio : bytes)
    (st : wstate) (data : bytes) :
  answer_audio (backend (calls st) (single_voice_request api_key voice text))
  = Some data ->
  sequential_loop api_key total_segments i ((voice, text) :: rest)
    combined_audio st
  = sequential_loop api_key total_segments (S i) rest (combined_audio ++ data)
      (mkState
         (signals st ++ [progress (sequential_progress i total_segments voice)])
         (calls st ++ [single_voice_request api_key voice text])).
Proof.
  intros Hr. cbn [sequential_loop]. run_monad.
  destruct (backend (calls st) (single_voice_request api_key voice text))
    as [e|[|[[|[d|] ps]|] cs]]; try discriminate Hr.
  injection Hr as ->. reflexivity.
Qed.

(** One turn of the loop whose call fails. *)
Lemma sequential_loop_stop (api_key : str) (total_segments i : nat)
    (voice text : str) (rest : list segment) (combined_audio : bytes)
    (st : wstate) (e : str) :
  segment_failure i
    (backend (calls st) (single_voice_request api_key voice text)) e ->
  sequential_loop api_key total_segments i ((voice, text) :: rest)
    combined_audio st
  = (Exn e,
     mkState
       (signals st ++ [progress (sequential_progress i total_segments voice)])
       (calls st ++ [single_voice_request api_key voice text])).
Proof.
  intros Hr. cbn [sequential_loop]. run_monad.
  destruct Hr; reflexivity.
Qed.

Lemma sequential_loop_aborts (api_key : str) (total_segments : nat) (k : nat) :
  forall (segments : list segment) (i : nat) (combined_audio : bytes)
         (st : wstate) (r : call_result) (e : str),
  (forall j, (j < k)%nat ->
     exists rj data, segment_answer api_key segments st j = Some rj
                     /\ answer_audio rj = Some data) ->
  segment_answer api_key segments st k = Some r ->
  segment_failure (i + k) r e ->
  sequential_loop api_key total_segments i segments combined_audio st
  = (Exn e,
     mkState
       (signals st
        ++ sequential_progresses total_segments i (take (S k) segments))
       (calls st ++ take (S k) (sequential_requests api_key segments))).
Proof.
  induction k as [|k IH]; intros segments i combined_audio st r e Hbefore Hk Hfail.
  - destruct segments as [|[voice text] rest]; [discriminate Hk|].
    rewrite segment_answer_head in Hk. injection Hk as <-.
    rewrite Nat.add_0_r in Hfail.
    rewrite (sequential_loop_stop _ _ _ _ _ _ _ _ _ Hfail).
    cbn [take sequential_requests map].
    by rewrite sequential_progresses_cons.
  - destruct segments as [|[voice text] rest]; [discriminate Hk|].
    destruct (Hbefore O ltac:(lia)) as (r0 & data & Hr0 & Hdata).
    rewrite segment_answer_head in Hr0. injection Hr0 as <-.
    rewrite (sequential_loop_step _ _ _ _ _ _ _ _ _ Hdata).
    set (p := progress (sequential_progress i total_segments voice)).
    rewrite (IH rest (S i) _ _ r e).
    + cbn [signals calls]. rewrite <- !app_assoc.
      change (take (S (S k)) ((voice, text) :: rest))
        with ((voice, text) :: take (S k) rest).
      by rewrite sequential_progresses_cons.
    + intros j Hj. rewrite <- (segment_answer_tail _ voice text).
      apply Hbefore. lia.
    + by rewrite <- (segment_answer_tail _ voice text).
    + by rewrite Nat.add_succ_comm.
Qed.

Lemma sequential_progresses_no_finished (total_segments i : nat)
    (segments : list segment) :
  forallb (fun s => negb (is_finished s))
    (sequential_progresses total_segments i segments) = true.
Proof.
  apply forallb_forall. intros s Hs. apply list_elem_of_In in Hs.
  unfold sequential_progresses in Hs.
  apply elem_of_lookup_imap in Hs as (k & [v t] & -> & _). reflexivity.
Qed.

(** With the audio library and a client, the sequential path is its loop
    and then one closing signal. *)
Lemma sequential_run_with_client (api_key : str) (segments : list segment)
    (st : wstate) :
  PYDUB_AVAILABLE = true ->
  api_key <> [] ->
  _generate_sequential api_key segments st
  = match sequential_loop api_key (length segments) O segments [] st with
    | (Ok combined_audio, st') => emit (finished (export_wav combined_audio)) st'
    | (Exn e, st') =>
        emit (error (lit "Ошибка при генерации речи из нескольких сегментов: " ++ e))
          st'
    end.
Proof.
  intros Hpydub Hkey. unfold _generate_sequential.
  rewrite Hpydub, (genai_Client_built _ Hkey). cbn [negb].
  unfold try_except, mbind, M_bind, lift.
  by destruct (sequential_loop api_key (length segments) O segments [] st)
    as [[audio|e] st'].
Qed.

(** Without a key no client is built: the sequential path reports that
    error and calls nothing. *)
Lemma sequential_client_error_run (segments : list segment) (st : wstate) :
  PYDUB_AVAILABLE = true ->
  _generate_sequential [] segments st
  = (Ok tt,
     mkState
       (signals st
        ++ [error (lit "Ошибка при генерации речи из нескольких сегментов: "
                   ++ missing_key_message)])
       (calls st)).
Proof. intros Hpydub. unfold _generate_sequential. by rewrite Hpydub. Qed.

(** C3 (amended).  In the sequential path of a worker that has the audio
    library and a client (its credential is not empty), when the call for
    a segment raises or returns an empty response, the calls before it
    having returned audio, the worker makes no further call and emits an
    error signal and no success signal.  The error text is the fixed
    prefix followed by the text of the exception; for an empty response
    that text names the 1-based number of the segment. *)
Theorem sequential_failure_aborts_generation (api_key : str)
    (segments : list segment) (st : wstate) (k : nat) (r : call_result)
    (e : str) :
  PYDUB_AVAILABLE = true ->
  api_key <> [] ->
  (forall j, (j < k)%nat ->
     exists rj data, segment_answer api_key segments st j = Some rj
                     /\ answer_audio rj = Some data) ->
  segment_answer api_key segments st k = Some r ->
  segment_failure k r e ->
  let emitted :=
    sequential_progresses (length segments) O (take (S k) segments)
    ++ [error (lit "Ошибка при генерации речи из нескольких сегментов: " ++ e)] in
  _generate_sequential api_key segments st
  = (Ok tt,
     mkState (signals st ++ emitted)
       (calls st ++ take (S k) (sequential_requests api_key segments)))
  /\ forallb (fun s => negb (is_finished s)) emitted = true
  /\ ((r = returned [] \/ exists cs, r = returned (content [] :: cs)) ->
      e = lit "Пустой ответ от API для сегмента " ++ decimal (k + 1)).
Proof.
  intros Hpydub Hkey Hbefore Hk Hfail emitted. split; [|split].
  - rewrite (sequential_run_with_client _ _ _ Hpydub Hkey).
    rewrite (sequential_loop_aborts api_key _ k segments O [] st r e Hbefore Hk Hfail).
    unfold emit. cbn [signals calls]. subst emitted. by rewrite <- app_assoc.
  - subst emitted. rewrite forallb_app, sequential_progresses_no_finished.
    reflexivity.
  - intros [->|[cs ->]]; by inversion Hfail.
Qed.

Lemma sequential_loop_completes (api_key : str) (total_segments : nat) :
  forall (segments : list segment) (audios : list bytes) (i : nat)
         (combined_audio : bytes) (st : wstate),
  length audios = length segments ->
  (forall j data, audios !! j = Some data ->
     exists rj, segment_answer api_key segments st j = Some rj
                /\ answer_audio rj = Some data) ->
  sequential_loop api_key total_segments i segments combined_audio st
  = (Ok (combined_audio ++ concat audios),
     mkState
       (signals st ++ sequential_progresses total_segments i segments)
       (calls st ++ sequential_requests api_key segments)).
Proof.
  induction segments as [|[voice text] rest IH];
    intros audios i combined_audio st Hlen Hall.
  - destruct audios; [|discriminate Hlen].
    cbn. unfold mret, M_ret. rewrite !app_nil_r. by destruct st.
  - destruct audios as [|data audios]; [discriminate Hlen|].
    destruct (Hall O data eq_refl) as (r0 & Hr0 & Hdata).
    rewrite segment_answer_head in Hr0. injection Hr0 as <-.
    rewrite (sequential_loop_step _ _ _ _ _ _ _ _ _ Hdata).
    rewrite (IH audios).
    + cbn [signals calls concat sequential_requests map].
      rewrite sequential_progresses_cons, <- !app_assoc. reflexivity.
    + by injection Hlen.
    + intros j d Hj. rewrite <- (segment_answer_tail _ voice text).
      by apply (Hall (S j)).
Qed.

(** With the audio library and a client (the credential is not empty),
    when every call returns audio, the result is the export of the audio
    of all the segments, in order. *)
Lemma sequential_run_completes (api_key : str) (segments : list segment)
    (audios : list bytes) (st : wstate) :
  PYDUB_AVAILABLE = true ->
  api_key <> [] ->
  length audios = length segments ->
  (forall j data, audios !! j = Some data ->
     exists rj, segment_answer api_key segments st j = Some rj
                /\ answer_audio rj = Some data) ->
  _generate_sequential api_key segments st
  = (Ok tt,
     mkState
       (signals st ++ sequential_progresses (length segments) O segments
        ++ [finished (export_wav (concat audios))])
       (calls st ++ sequential_requests api_key segments)).
Proof.
  intros Hpydub Hkey Hlen Hall.
  rewrite (sequential_run_with_client _ _ _ Hpydub Hkey).
  rewrite (sequential_loop_completes _ _ segments audios O [] st Hlen Hall).
  unfold emit. cbn [signals calls app]. by rewrite <- app_assoc.
Qed.

(** A list of one segment goes through the sequential path: one progress
    text for segment 1/1, one call, one closing signal. *)
Lemma single_segment_run (api_key voice text : str)
    (use_native_multispeaker : bool) (st : wstate) :
  PYDUB_AVAILABLE = true ->
  api_key <> [] ->
  exists closing,
    MultiVoiceTTSWorker_run api_key [(voice, text)] use_native_multispeaker st
    = (Ok tt,
       mkState
         ((signals st ++ [progress (sequential_progress 0 1 voice)])
          ++ [closing])
         (calls st ++ [single_voice_request api_key voice text])).
Proof.
  intros Hpydub Hkey. unfold MultiVoiceTTSWorker_run.
  rewrite can_use_native_iff.
  assert (size (unique_speakers [(voice, text)]) = 1%nat) as ->.
  { unfold unique_speakers. cbn [map fst list_to_set].
    by rewrite union_empty_r_L, size_singleton. }
  rewrite (bool_decide_eq_false_2 (1 = 2)%nat) by done.
  rewrite andb_false_r, (sequential_run_with_client _ _ _ Hpydub Hkey).
  cbn [sequential_loop length]. run_monad.
  destruct (backend (calls st) (single_voice_request api_key voice text))
    as [e|[|[[|[d|] ps]|] cs]];
    cbn [is_empty_response first_audio_data signals calls];
    eexists; reflexivity.
Qed.

(** ** The single-voice worker *)

(** [TTSWorker.run] checks the credential, the text and the voice before
    it builds a client: when one of them is rejected it emits one error
    and the backend receives nothing. *)
Lemma TTSWorker_run_validates_first (api_key text voice : str) (st : wstate) :
  is_valid (validate_api_key api_key) = false
  \/ is_valid (validate_text text) = false
  \/ is_valid (validate_voice voice) = false ->
  calls (snd (TTSWorker_run api_key text voice st)) = calls st
  /\ exists m, signals (snd (TTSWorker_run api_key text voice st))
               = signals st ++ [error m].
Proof.
  intros H. unfold TTSWorker_run, try_except.
  destruct (is_valid (validate_api_key api_key)); cbn [negb];
    [|unfold emit; cbn [snd calls signals]; eauto].
  destruct (is_valid (validate_text text)); cbn [negb];
    [|unfold emit; cbn [snd calls signals]; eauto].
  destruct (is_valid (validate_voice voice)); cbn [negb];
    [|unfold emit; cbn [snd calls signals]; eauto].
  by destruct H as [?|[?|?]].
Qed.

Lemma TTSWorker_run_calls_once (api_key text voice : str) (st : wstate) :
  is_valid (validate_api_key api_key) = true ->
  is_valid (validate_text text) = true ->
  is_valid (validate_voice voice) = true ->
  exists rest,
    snd (TTSWorker_run api_key text voice st)
    = mkState
        (signals st
         ++ progress (lit "Инициализация TTS клиента...")
            :: progress (lit "Отправка запроса к API...") :: rest)
        (calls st ++ [single_voice_request api_key voice text])
    /\ forall m, progress m ∈ rest -> m = lit "Обработка ответа...".
Proof.
  intros Hk Ht Hv. unfold TTSWorker_run. rewrite Hk, Ht, Hv. cbn [negb].
  rewrite (genai_Client_built _ (valid_key_nonempty _ Hk)). run_monad.
  destruct (backend (calls st) (single_voice_request api_key voice text))
    as [e|[|[[|[d|] ps]|] cs]]; cbn [is_empty_response first_audio_data];
    try destruct (bool_decide (d = []));
    cbn [snd signals calls]; rewrite <- ?app_assoc; cbn [app];
    eexists; (split; [reflexivity|]);
    intros m Hm; repeat (apply elem_of_cons in Hm as [Hm|Hm]; [by inversion Hm|]);
    by apply elem_of_nil in Hm.
Qed.

(** ** [create_worker] *)

(** A list of one segment without the audio library: the error of the
    sequential path and no call. *)
Lemma single_segment_run_without_pydub (api_key voice text : str)
    (use_native_multispeaker : bool) (st : wstate) :
  PYDUB_AVAILABLE = false ->
  MultiVoiceTTSWorker_run api_key [(voice, text)] use_native_multispeaker st
  = (Ok tt,
     mkState
       (signals st
        ++ [error (lit "Для работы с несколькими голосами нужна библиотека pydub.")])
       (calls st)).
Proof.
  intros Hpydub. unfold MultiVoiceTTSWorker_run.
  rewrite can_use_native_iff.
  assert (size (unique_speakers [(voice, text)]) = 1%nat) as ->.
  { unfold unique_speakers. cbn [map fst list_to_set].
    by rewrite union_empty_r_L, size_singleton. }
  rewrite (bool_decide_eq_false_2 (1 = 2)%nat) by done.
  rewrite andb_false_r. unfold _generate_sequential. by rewrite Hpydub.
Qed.

(** C2 (amended).  [create_worker] chooses the worker by the delimiter
    switch and the presence of the opening marker, not by the number of
    segments.  With the switch off and no marker it returns the
    single-voice worker; when the credential, the text and the voice pass
    the checks of that worker, its run makes one call with the given voice
    and text and emits none of the per-segment progress texts.  Otherwise
    it returns the multi-voice worker; for a parse of exactly one segment
    that worker runs the sequential path: with the audio library and a
    credential that is not empty, the progress text for segment 1/1 and one
    call with the voice and text of the segment; without the audio library,
    one error and no call. *)
Theorem create_worker_dispatch (self : TextToSpeechCore) (text voice : str) :
  let s := settings_manager self in
  let segments :=
    parse text voice (get_delimiter_enabled s) (get_delimiter_string s)
      (get_delimiter_voice_sequence s) in
  (get_delimiter_enabled s = false -> has_voice_tags text = false ->
   create_worker self text voice = TTSWorker (core_api_key self) text voice
   /\ (is_valid (validate_api_key (core_api_key self)) = true ->
       is_valid (validate_text text) = true ->
       is_valid (validate_voice voice) = true ->
       forall st, exists rest,
         snd (run (create_worker self text voice) st)
         = mkState
             (signals st
              ++ progress (lit "Инициализация TTS клиента...")
                 :: progress (lit "Отправка запроса к API...") :: rest)
             (calls st ++ [single_voice_request (core_api_key self) voice text])
         /\ forall m, progress m ∈ rest -> m = lit "Обработка ответа..."))
  /\ (get_delimiter_enabled s || has_voice_tags text = true ->
      create_worker self text voice
      = MultiVoiceTTSWorker (core_api_key self) segments
          (get_use_native_multispeaker s)
      /\ forall v t, segments = [(v, t)] ->
         forall st,
           (PYDUB_AVAILABLE = true -> core_api_key self <> [] ->
            exists closing,
              run (create_worker self text voice) st
              = (Ok tt,
                 mkState
                   ((signals st ++ [progress (sequential_progress 0 1 v)])
                    ++ [closing])
                   (calls st ++ [single_voice_request (core_api_key self) v t])))
           /\ (PYDUB_AVAILABLE = false ->
               run (create_worker self text voice) st
               = (Ok tt,
                  mkState
                    (signals st
                     ++ [error (lit "Для работы с несколькими голосами нужна библиотека pydub.")])
                    (calls st)))).
Proof.
  intros s segments. split.
  - intros Hd Ht. unfold create_worker. fold s. rewrite Hd, Ht. cbn [orb].
    split; [reflexivity|]. intros Hk Htext Hv st. cbn [run].
    by apply TTSWorker_run_calls_once.
  - intros Hor. unfold create_worker. fold s. rewrite Hor.
    split; [reflexivity|]. intros v t Hseg st. cbn [run].
    fold segments. rewrite Hseg. split.
    + intros Hpydub Hkey. by apply single_segment_run.
    + intros Hpydub. by apply single_segment_run_without_pydub.
Qed.

(** ** The parser: tag mode *)

Lemma validate_voice_catalog (name : str) :
  is_valid (validate_voice name) = bool_decide (name ∈ AppConfig.VOICES).
Proof.
  unfold validate_voice. destruct name as [|c name]; [by vm_compute|].
  cbn [nonempty negb]. by destruct (bool_decide (c :: name ∈ AppConfig.VOICES)).
Qed.

Lemma tag_step_voice (default_voice text : str) (segments : list segment)
    (last_end : nat) (m : tag_match) :
  tag_step default_voice text (segments, last_end) m
  = ((if (last_end <? m_start m)%nat
      then segments ++ [(default_voice, strip (slice text last_end (m_start m)))]
      else segments)
     ++ [(tag_voice default_voice (m_voice m), strip (m_inner m))],
     m_end m).
Proof.
  unfold tag_step, tag_voice. rewrite validate_voice_catalog.
  by destruct (bool_decide (m_voice m ∈ AppConfig.VOICES)).
Qed.

Lemma keep_app (a b : list segment) : keep (a ++ b) = keep a ++ keep b.
Proof. apply List.filter_app. Qed.

Lemma keep_empty_text (voice : str) : keep [(voice, [])] = [].
Proof. reflexivity. Qed.

Lemma slice_empty (text : str) (a b : nat) : (b <= a)%nat -> slice text a b = [].
Proof. intros H. unfold slice. by replace (b - a)%nat with O by lia. Qed.

(** The loop over the matches, closed by the text after the last match,
    keeps the spans of [tag_mode_spans]. *)
Lemma tag_loop_spans (default_voice text : str) (ms : list tag_match) :
  forall (segments : list segment) (last_end : nat)
         (segments' : list segment) (last_end' : nat),
  fold_left (tag_step default_voice text) ms (segments, last_end)
  = (segments', last_end') ->
  keep (if (last_end' <? length text)%nat
        then segments' ++ [(default_voice, strip (drop last_end' text))]
        else segments')
  = keep segments ++ keep (tag_mode_spans default_voice text last_end ms).
Proof.
  induction ms as [|m ms IH]; intros segments last_end segments' last_end'.
  - cbn [fold_left tag_mode_spans]. intros [= <- <-].
    destruct (Nat.ltb_spec last_end (length text)) as [Hlt|Hge].
    + apply keep_app.
    + rewrite drop_ge by done. rewrite strip_nil, keep_empty_text.
      by rewrite app_nil_r.
  - cbn [fold_left tag_mode_spans]. rewrite tag_step_voice. intros Hfold.
    rewrite (IH _ _ _ _ Hfold). rewrite keep_app.
    change (?a :: ?b :: tag_mode_spans default_voice text (m_end m) ms)
      with ([a] ++ [b] ++ tag_mode_spans default_voice text (m_end m) ms).
    rewrite !keep_app, <- !app_assoc.
    destruct (Nat.ltb_spec last_end (m_start m)) as [Hlt|Hge].
    + rewrite keep_app. by rewrite <- app_assoc.
    + rewrite slice_empty by done. by rewrite strip_nil, keep_empty_text.
Qed.

Lemma parse_in_tag_mode (text default_voice : str) (delimiter_enabled : bool)
    (delimiter_string : str) (delimiter_voice_sequence : list str) :
  has_voice_tags text = true ->
  parse text default_voice delimiter_enabled delimiter_string
    delimiter_voice_sequence
  = tag_mode_spec text default_voice.
Proof.
  intros Htags. unfold parse, parse_tags, tag_mode_spec. rewrite Htags.
  destruct (fold_left (tag_step default_voice text) (finditer text) ([], O))
    as [segments' last_end'] eqn:Hfold.
  apply (tag_loop_spans _ _ _ _ _ _ _ Hfold).
Qed.

(** C7.  In tag mode the result is made of the trimmed untagged text
    before each tag and after the last one, with the default voice, and of
    the trimmed text of each tag, with the voice of the tag when the
    catalog has it and the default voice otherwise; spans whose trimmed
    text is empty are dropped.  The two-tag example of the specification
    parses to (Kore, Hi), (Puck, Bye). *)
Theorem tag_mode_segments :
  (forall text default_voice delimiter_enabled delimiter_string
          delimiter_voice_sequence,
     has_voice_tags text = true ->
     parse text default_voice delimiter_enabled delimiter_string
       delimiter_voice_sequence
     = tag_mode_spec text default_voice)
  /\ (forall delimiter_enabled delimiter_string delimiter_voice_sequence,
        parse (lit "[voice:Kore]Hi[/voice] [voice:Puck]Bye[/voice]")
          (lit "Nova") delimiter_enabled delimiter_string
          delimiter_voice_sequence
        = [(lit "Kore", lit "Hi"); (lit "Puck", lit "Bye")]).
Proof.
  split; [apply parse_in_tag_mode|].
  intros. rewrite parse_in_tag_mode by reflexivity. by vm_compute.
Qed.

(** C6.  A text that holds a complete voice tag is parsed in tag mode:
    the result does not depend on the delimiter switch, the delimiter
    string or the voice sequence. *)
Theorem tag_mode_ignores_delimiter (text default_voice : str)
    (delimiter_enabled : bool) (delimiter_string : str)
    (delimiter_voice_sequence : list str) (pre name inner post : str) :
  name <> [] ->
  forallb is_word name = true ->
  text = pre ++ TAG_OPEN ++ name ++ [93] ++ inner ++ TAG_CLOSE ++ post ->
  parse text default_voice delimiter_enabled delimiter_string
    delimiter_voice_sequence
  = tag_mode_spec text default_voice
  /\ forall delimiter_enabled' delimiter_string' delimiter_voice_sequence',
       parse text default_voice delimiter_enabled delimiter_string
         delimiter_voice_sequence
       = parse text default_voice delimiter_enabled' delimiter_string'
           delimiter_voice_sequence'.
Proof.
  intros _ _ Htext.
  assert (Htags : has_voice_tags text = true).
  { apply contains_spec. eexists pre, _. exact Htext. }
  split; [by apply parse_in_tag_mode|].
  intros. by rewrite !parse_in_tag_mode.
Qed.

Lemma contains_tag_open_strip (text : str) :
  contains TAG_OPEN text = true -> contains TAG_OPEN (strip text) = true.
Proof.
  rewrite !contains_spec. intros (pre & post & ->).
  exists (lstrip pre), (rstrip post).
  assert (Hopen : TAG_OPEN = 91 :: [118; 111; 105; 99; 101] ++ [58])
    by reflexivity.
  rewrite Hopen. unfold strip. cbn [app].
  rewrite lstrip_app_nonspace by reflexivity.
  change (lstrip pre ++ 91 :: 118 :: 111 :: 105 :: 99 :: 101 :: 58 :: post)
    with (lstrip pre ++ [91; 118; 111; 105; 99; 101] ++ 58 :: post).
  rewrite app_assoc, rstrip_app_nonspace by reflexivity.
  by rewrite <- app_assoc.
Qed.

(** C10.  A text with the opening marker and no complete tag is parsed in
    tag mode whatever the delimiter configuration: the result is the one
    segment (default voice, trimmed text), and the marker is still in its
    text. *)
Theorem unmatched_marker_gives_one_segment (text default_voice : str)
    (delimiter_enabled : bool) (delimiter_string : str)
    (delimiter_voice_sequence : list str) :
  has_voice_tags text = true ->
  finditer text = [] ->
  parse text default_voice delimiter_enabled delimiter_string
    delimiter_voice_sequence
  = [(default_voice, strip text)]
  /\ contains TAG_OPEN (strip text) = true.
Proof.
  intros Htags Hnone.
  pose proof (contains_tag_open_strip text Htags) as Hkept.
  split; [|exact Hkept].
  unfold parse, parse_tags. rewrite Htags, Hnone. cbn [fold_left].
  assert (Hlen : (0 <? length text)%nat = true).
  { apply Nat.ltb_lt. destruct text; [discriminate Htags|simpl; lia]. }
  rewrite Hlen, drop_0. cbn [app List.filter snd].
  destruct (strip text); [discriminate Hkept|reflexivity].
Qed.

(** ** The parser: delimiter mode *)

Lemma delimiter_loop_spec (voices : list str) (default_voice : str)
    (parts : list str) :
  forall (segments : list segment) (voice_index : nat),
  fst (fold_left (delimiter_step voices default_voice) parts
         (segments, voice_index))
  = segments
    ++ imap (fun k part =>
               (nth ((voice_index + k) mod length voices)%nat voices
                  default_voice, part))
         (List.filter nonempty (map strip parts)).
Proof.
  induction parts as [|part parts IH]; intros segments voice_index.
  - cbn. by rewrite app_nil_r.
  - cbn [fold_left map List.filter]. unfold delimiter_step at 2.
    destruct (nonempty (strip part)).
    + rewrite IH, imap_cons, <- app_assoc, Nat.add_0_r. cbn [app].
      do 2 f_equal. apply imap_ext. intros k p _. cbn.
      by rewrite Nat.add_succ_r.
    + apply IH.
Qed.

Lemma keep_labelled (label : nat -> str) (parts : list str) :
  Forall (fun p => nonempty p = true) parts ->
  keep (imap (fun k part => (label k, part)) parts)
  = imap (fun k part => (label k, part)) parts.
Proof.
  intros Hall. revert label.
  induction Hall as [|p parts Hp _ IH]; intros label; [done|].
  rewrite imap_cons. unfold keep. cbn [List.filter snd]. rewrite Hp.
  f_equal. apply (IH (label ∘ S)).
Qed.

Lemma filter_nonempty_all (parts : list str) :
  Forall (fun p => nonempty p = true) (List.filter nonempty parts).
Proof.
  apply Forall_forall. intros p Hp. apply list_elem_of_In in Hp.
  by apply filter_In in Hp as [_ Hp].
Qed.

Lemma parse_in_delimiter_mode (text default_voice delimiter_string : str)
    (delimiter_voice_sequence : list str) :
  has_voice_tags text = false ->
  delimiter_string <> [] ->
  parse text default_voice true delimiter_string delimiter_voice_sequence
  = delimiter_mode_spec text default_voice delimiter_string
      delimiter_voice_sequence.
Proof.
  intros Htags Hsep. unfold parse. rewrite Htags.
  destruct delimiter_string as [|c sep]; [done|]. cbn [andb nonempty].
  unfold parse_delimiter, delimiter_mode_spec.
  rewrite delimiter_loop_spec. cbn [app Nat.add].
  apply (keep_labelled _ _ (filter_nonempty_all _)).
Qed.

(** C8.  In delimiter mode the text is cut at every occurrence of the
    delimiter, the parts whose trimmed text is empty are dropped, and the
    part of rank k among the others gets the voice of index k modulo the
    length of the voice sequence, the sequence being the default voice
    alone when none is configured.  The example of the specification
    parses to (X, A), (Y, B), (X, C). *)
Theorem delimiter_mode_cycles_voices :
  (forall text default_voice delimiter_string delimiter_voice_sequence,
     has_voice_tags text = false ->
     delimiter_string <> [] ->
     parse text default_voice true delimiter_string delimiter_voice_sequence
     = delimiter_mode_spec text default_voice delimiter_string
         delimiter_voice_sequence)
  /\ (forall default_voice,
        parse (lit "A---B---C") default_voice true (lit "---")
          [lit "X"; lit "Y"]
        = [(lit "X", lit "A"); (lit "Y", lit "B"); (lit "X", lit "C")]).
Proof.
  split; [apply parse_in_delimiter_mode|].
  intros default_voice. by vm_compute.
Qed.

(** ** The tag pattern on a well-formed tag *)

Lemma span_run (p : N -> bool) (run rest : str) :
  forallb p run = true ->
  match rest with [] => True | c :: _ => p c = false end ->
  span p (run ++ rest) = (run, rest).
Proof.
  intros Hrun Hrest. induction run as [|c run IH]; cbn [app span].
  - destruct rest as [|c rest]; [done|]. cbn [span]. by rewrite Hrest.
  - cbn [forallb] in Hrun. apply andb_true_iff in Hrun as [Hc Hrun].
    by rewrite Hc, (IH Hrun).
Qed.

Lemma startswith_app (p s : str) : startswith p (p ++ s) = true.
Proof. apply startswith_spec. by exists s. Qed.

Lemma startswith_other_head (c d : N) (p s : str) :
  c <> d -> startswith (c :: p) (d :: s) = false.
Proof. intros H. cbn [startswith]. by rewrite (proj2 (N.eqb_neq c d) H). Qed.

Lemma find_after_fresh (c : N) (needle inner post : str) :
  c ∉ inner ->
  find (c :: needle) (inner ++ (c :: needle) ++ post) = Some (length inner).
Proof.
  induction inner as [|d inner IH]; intros Hfresh.
  - cbn [app length].
    change (find (c :: needle) (c :: needle ++ post))
      with (if startswith (c :: needle) ((c :: needle) ++ post) then Some O
            else S <$> find (c :: needle) (needle ++ post)).
    by rewrite startswith_app.
  - apply not_elem_of_cons in Hfresh as [Hd Hfresh].
    change (find (c :: needle) ((d :: inner) ++ (c :: needle) ++ post))
      with (if startswith (c :: needle) (d :: inner ++ (c :: needle) ++ post)
            then Some O
            else S <$> find (c :: needle) (inner ++ (c :: needle) ++ post)).
    rewrite startswith_other_head by done. by rewrite (IH Hfresh).
Qed.

Lemma match_at_tag (name inner post : str) :
  name <> [] ->
  forallb is_word name = true ->
  91 ∉ inner ->
  match_at (TAG_OPEN ++ name ++ [93] ++ inner ++ TAG_CLOSE ++ post)
  = Some (name, inner,
          (length TAG_OPEN + length name + 1 + length inner
           + length TAG_CLOSE)%nat).
Proof.
  intros Hname Hword Hinner. unfold match_at.
  rewrite startswith_app, drop_app_length.
  rewrite (span_run is_word name ([93] ++ inner ++ TAG_CLOSE ++ post) Hword)
    by reflexivity.
  destruct name as [|c name]; [done|]. cbn [app].
  assert (Hfind : find TAG_CLOSE (inner ++ TAG_CLOSE ++ post)
                  = Some (length inner))
    by exact (find_after_fresh 91 (lit "/voice]") inner post Hinner).
  rewrite Hfind. by rewrite take_app_length.
Qed.

Lemma finditer_go_skip (a b : str) :
  forall pos, finditer_go pos (length a) (a ++ b)
              = finditer_go (pos + length a) O b.
Proof.
  induction a as [|c a IH]; intros pos; cbn [length app].
  - by rewrite Nat.add_0_r.
  - cbn [finditer_go]. rewrite IH. f_equal. lia.
Qed.

Lemma match_at_other_head (c : N) (s : str) : c <> 91 -> match_at (c :: s) = None.
Proof.
  intros Hc. unfold match_at.
  assert (Hopen : TAG_OPEN = 91 :: lit "voice:") by reflexivity.
  rewrite Hopen at 1. by rewrite startswith_other_head.
Qed.

Lemma finditer_go_untagged (pre rest : str) :
  91 ∉ pre ->
  forall pos, finditer_go pos O (pre ++ rest)
              = finditer_go (pos + length pre) O rest.
Proof.
  induction pre as [|c pre IH]; intros Hpre pos; cbn [length app].
  - by rewrite Nat.add_0_r.
  - apply not_elem_of_cons in Hpre as [Hc Hpre].
    cbn [finditer_go]. rewrite (match_at_other_head c _ (not_eq_sym Hc)).
    rewrite (IH Hpre). f_equal. lia.
Qed.

(** On a text that opens with untagged text free of brackets, followed by
    a tag whose inner text is free of brackets, the first match is that
    tag, with its name and inner text as groups, and the scan goes on
    right after it. *)
Lemma finditer_first_tag (pos : nat) (pre name inner post : str) :
  91 ∉ pre ->
  name <> [] ->
  forallb is_word name = true ->
  91 ∉ inner ->
  let len :=
    (length TAG_OPEN + length name + 1 + length inner + length TAG_CLOSE)%nat in
  finditer_go pos O
    (pre ++ TAG_OPEN ++ name ++ [93] ++ inner ++ TAG_CLOSE ++ post)
  = mkMatch (pos + length pre) (pos + length pre + len) name inner
    :: finditer_go (pos + length pre + len) O post.
Proof.
  intros Hpre Hname Hword Hinner len.
  rewrite (finditer_go_untagged _ _ Hpre).
  pose proof (match_at_tag name inner post Hname Hword Hinner) as Hm.
  assert (Hopen : TAG_OPEN = 91 :: lit "voice:") by reflexivity.
  set (tail := lit "voice:" ++ name ++ [93] ++ inner ++ TAG_CLOSE).
  assert (Hs : TAG_OPEN ++ name ++ [93] ++ inner ++ TAG_CLOSE ++ post
               = 91 :: tail ++ post).
  { rewrite Hopen. unfold tail. rewrite <- !app_assoc. reflexivity. }
  rewrite Hs in *. cbn [finditer_go]. rewrite Hm. fold len.
  assert (Hlen : (len - 1)%nat = length tail).
  { unfold len, tail. rewrite Hopen, !length_app. cbn [length]. lia. }
  rewrite Hlen, finditer_go_skip. do 2 f_equal. lia.
Qed.

(** ** More on the parser *)

Lemma strip_head (s : str) (c : N) (r : str) :
  strip s = c :: r -> is_space c = false.
Proof.
  unfold strip. destruct (lstrip s) as [|c' r'] eqn:Hl; [done|].
  pose proof (lstrip_head _ _ _ Hl) as Hc'.
  change (c' :: r') with ([] ++ c' :: r').
  rewrite (rstrip_app_nonspace [] r' c' Hc'). by intros [= <- _].
Qed.

Lemma strip_idempotent (s : str) : trimmed (strip s).
Proof.
  unfold trimmed. destruct (strip s) as [|c r] eqn:Hs; [done|].
  pose proof (strip_head _ _ _ Hs) as Hc.
  unfold strip at 1. cbn [lstrip]. rewrite Hc.
  destruct (exists_last (l := c :: r) ltac:(done)) as (a & d & Hlast).
  rewrite Hlast in Hs |- *. pose proof (strip_last _ _ _ Hs) as Hd.
  change (a ++ [d]) with (a ++ d :: []).
  by rewrite (rstrip_app_nonspace a [] d Hd).
Qed.

Lemma lstrip_blank (s : str) : forallb is_space s = true -> lstrip s = [].
Proof.
  induction s as [|c s IH]; [done|]. cbn [forallb lstrip].
  intros [Hc Hs]%andb_true_iff. by rewrite Hc, IH.
Qed.

Lemma strip_blank (s : str) : forallb is_space s = true -> strip s = [].
Proof. intros H. unfold strip. by rewrite lstrip_blank. Qed.

Lemma tag_mode_spans_trimmed (default_voice text : str) (ms : list tag_match) :
  forall last_end,
  Forall (fun s : segment => trimmed (snd s))
    (tag_mode_spans default_voice text last_end ms).
Proof.
  induction ms as [|m ms IH]; intros last_end; cbn [tag_mode_spans].
  - repeat constructor. apply strip_idempotent.
  - repeat constructor; try apply strip_idempotent. apply IH.
Qed.

Lemma keep_Forall (P : segment -> Prop) (segments : list segment) :
  Forall P segments -> Forall P (keep segments).
Proof.
  rewrite !Forall_forall. intros H s Hs. apply H.
  apply list_elem_of_In in Hs. apply filter_In in Hs as [Hs _].
  by apply list_elem_of_In.
Qed.

Lemma keep_nonempty (segments : list segment) :
  Forall (fun s : segment => snd s <> []) (keep segments).
Proof.
  apply Forall_forall. intros [v t] Hs.
  apply list_elem_of_In in Hs. apply filter_In in Hs as [_ Hs].
  cbn in *. by destruct t.
Qed.

Lemma Forall_imap_labelled (P : segment -> Prop) (label : nat -> str)
    (parts : list str) :
  (forall k p, p ∈ parts -> P (label k, p)) ->
  Forall P (imap (fun k part => (label k, part)) parts).
Proof.
  intros H. apply Forall_forall. intros s Hs.
  apply elem_of_lookup_imap in Hs as (k & p & -> & Hp).
  apply H. by eapply list_elem_of_lookup_2.
Qed.

Lemma parse_cases (text default_voice : str) (delimiter_enabled : bool)
    (delimiter_string : str) (delimiter_voice_sequence : list str) :
  (has_voice_tags text = true
   /\ parse text default_voice delimiter_enabled delimiter_string
        delimiter_voice_sequence
      = tag_mode_spec text default_voice)
  \/ (has_voice_tags text = false /\ delimiter_enabled = true
      /\ delimiter_string <> []
      /\ parse text default_voice delimiter_enabled delimiter_string
           delimiter_voice_sequence
         = delimiter_mode_spec text default_voice delimiter_string
             delimiter_voice_sequence)
  \/ (has_voice_tags text = false
      /\ (delimiter_enabled = false \/ delimiter_string = [])
      /\ parse text default_voice delimiter_enabled delimiter_string
           delimiter_voice_sequence
         = keep [(default_voice, strip text)]).
Proof.
  destruct (has_voice_tags text) eqn:Htags.
  - left. split; [done|]. by apply parse_in_tag_mode.
  - right. destruct delimiter_enabled.
    + destruct delimiter_string as [|c sep].
      * right. split; [done|]. split; [by right|].
        unfold parse. by rewrite Htags.
      * left. repeat split; [done|]. by apply parse_in_delimiter_mode.
    + right. split; [done|]. split; [by left|].
      unfold parse. by rewrite Htags.
Qed.

(** Whatever the mode, no segment has an empty text, and the text of every
    segment is trimmed. *)
Theorem parse_segments_nonempty_and_trimmed (text default_voice : str)
    (delimiter_enabled : bool) (delimiter_string : str)
    (delimiter_voice_sequence : list str) :
  Forall (fun s : segment => snd s <> [] /\ trimmed (snd s))
    (parse text default_voice delimiter_enabled delimiter_string
       delimiter_voice_sequence).
Proof.
  apply Forall_and. split; [apply keep_nonempty|].
  destruct (parse_cases text default_voice delimiter_enabled delimiter_string
              delimiter_voice_sequence)
    as [[_ ->]|[(_ & _ & _ & ->)|(_ & _ & ->)]].
  - apply keep_Forall, tag_mode_spans_trimmed.
  - apply Forall_imap_labelled. intros k p Hp. cbn [snd].
    apply list_elem_of_In, filter_In in Hp as [Hp _].
    apply in_map_iff in Hp as (part & <- & _). apply strip_idempotent.
  - apply keep_Forall. repeat constructor. apply strip_idempotent.
Qed.

(** Without a marker, and with delimiter mode off or no delimiter string,
    the result is the trimmed text with the default voice, or nothing when
    the text is blank. *)
Theorem parse_plain_text (text default_voice : str) (delimiter_enabled : bool)
    (delimiter_string : str) (delimiter_voice_sequence : list str) :
  has_voice_tags text = false ->
  delimiter_enabled = false \/ delimiter_string = [] ->
  parse text default_voice delimiter_enabled delimiter_string
    delimiter_voice_sequence
  = if nonempty (strip text) then [(default_voice, strip text)] else [].
Proof.
  intros Htags Hoff. unfold parse. rewrite Htags.
  assert (delimiter_enabled && nonempty delimiter_string = false) as ->.
  { destruct Hoff as [->| ->]; [done|]. apply andb_false_r. }
  reflexivity.
Qed.

Lemma tag_mode_spans_voices (default_voice text : str) (ms : list tag_match) :
  forall last_end,
  Forall (fun s : segment => fst s = default_voice \/ fst s ∈ AppConfig.VOICES)
    (tag_mode_spans default_voice text last_end ms).
Proof.
  induction ms as [|m ms IH]; intros last_end; cbn [tag_mode_spans].
  - constructor; [by left|constructor].
  - constructor; [by left|]. constructor; [|apply IH].
    cbn [fst]. unfold tag_voice. case_bool_decide; [by right|by left].
Qed.

Lemma cycled_voice_in_sequence (voices : list str) (default_voice : str)
    (k : nat) :
  voices <> [] ->
  nth (k mod length voices)%nat voices default_voice ∈ voices.
Proof.
  intros Hne. apply list_elem_of_In, nth_In, Nat.mod_upper_bound.
  by destruct voices.
Qed.

Lemma parse_voices_known (text default_voice : str)
    (delimiter_enabled : bool) (delimiter_string : str)
    (delimiter_voice_sequence : list str) :
  Forall (fun s : segment =>
            fst s = default_voice \/ fst s ∈ AppConfig.VOICES
            \/ fst s ∈ delimiter_voice_sequence)
    (parse text default_voice delimiter_enabled delimiter_string
       delimiter_voice_sequence)
  /\ (is_valid (validate_voice default_voice) = true ->
      Forall (fun v => is_valid (validate_voice v) = true)
        delimiter_voice_sequence ->
      Forall (fun s : segment => is_valid (validate_voice (fst s)) = true)
        (parse text default_voice delimiter_enabled delimiter_string
           delimiter_voice_sequence)).
Proof.
  assert (Hknown :
    Forall (fun s : segment =>
              fst s = default_voice \/ fst s ∈ AppConfig.VOICES
              \/ fst s ∈ delimiter_voice_sequence)
      (parse text default_voice delimiter_enabled delimiter_string
         delimiter_voice_sequence)).
  { destruct (parse_cases text default_voice delimiter_enabled
                delimiter_string delimiter_voice_sequence)
      as [[_ ->]|[(_ & _ & _ & ->)|(_ & _ & ->)]].
    - apply keep_Forall.
      eapply Forall_impl; [apply tag_mode_spans_voices|].
      intros s [?|?]; auto.
    - unfold delimiter_mode_spec. apply Forall_imap_labelled.
      intros k p _. cbn [fst].
      destruct delimiter_voice_sequence as [|v vs].
      + left. by destruct (k mod 1)%nat as [|[|?]].
      + right. right. by apply cycled_voice_in_sequence.
    - apply keep_Forall. constructor; [by left|constructor]. }
  split; [exact Hknown|]. intros Hdefault Hseq.
  eapply Forall_impl; [exact Hknown|].
  intros [v t]. cbn [fst]. intros [->|[Hv|Hv]]; [done| |].
  - rewrite validate_voice_catalog. by apply bool_decide_eq_true.
  - rewrite Forall_forall in Hseq. by apply Hseq.
Qed.

(** Every voice of the result is the default voice, a voice of the
    catalog (from a tag) or a voice of the configured sequence.  Hence,
    when the default voice and the sequence pass [validate_voice], so does
    the voice of every segment. *)
Theorem parse_voices_are_known (text default_voice : str)
    (delimiter_enabled : bool) (delimiter_string : str)
    (delimiter_voice_sequence : list str) :
  Forall (fun s : segment =>
            fst s = default_voice \/ fst s ∈ AppConfig.VOICES
            \/ fst s ∈ delimiter_voice_sequence)
    (parse text default_voice delimiter_enabled delimiter_string
       delimiter_voice_sequence)
  /\ (is_valid (validate_voice default_voice) = true ->
      Forall (fun v => is_valid (validate_voice v) = true)
        delimiter_voice_sequence ->
      Forall (fun s : segment => is_valid (validate_voice (fst s)) = true)
        (parse text default_voice delimiter_enabled delimiter_string
           delimiter_voice_sequence)).
Proof. apply parse_voices_known. Qed.

Lemma split_go_chars (sep : str) (s : str) :
  forall (skip : nat) (cur : str) (part : str) (c : N),
  part ∈ split_go sep skip cur s -> c ∈ part -> c ∈ cur \/ c ∈ s.
Proof.
  induction s as [|d s IH]; intros skip cur part c; cbn [split_go].
  - intros Hpart%list_elem_of_singleton Hc. subst part. by left.
  - destruct skip as [|k].
    + destruct (startswith sep (d :: s)).
      * intros [Heq|Hpart]%elem_of_cons Hc; [subst part; by left|].
        destruct (IH _ _ _ _ Hpart Hc) as [Hnil|Hs];
          [by apply elem_of_nil in Hnil|].
        right. by right.
      * intros Hpart Hc.
        destruct (IH _ _ _ _ Hpart Hc) as [Hcur|Hs].
        -- apply elem_of_app in Hcur as [?|Hd]; [by left|].
           apply list_elem_of_singleton in Hd as ->. right. by left.
        -- right. by right.
    + intros Hpart Hc.
      destruct (IH _ _ _ _ Hpart Hc) as [?|?]; [by left|right; by right].
Qed.

Lemma filter_none (f : str -> bool) (parts : list str) :
  (forall p, In p parts -> f p = false) -> List.filter f parts = [].
Proof.
  induction parts as [|p parts IH]; intros H; [done|]. cbn [List.filter].
  rewrite (H p (or_introl eq_refl)). apply IH. intros q Hq. apply H. by right.
Qed.

Lemma blank_has_no_marker (text : str) :
  forallb is_space text = true -> has_voice_tags text = false.
Proof.
  intros Hblank. apply not_true_is_false. intros Htags.
  apply contains_spec in Htags as (pre & post & ->).
  rewrite forallb_app in Hblank. apply andb_true_iff in Hblank as [_ Hblank].
  rewrite forallb_app in Hblank. apply andb_true_iff in Hblank as [Hopen _].
  by vm_compute in Hopen.
Qed.

(** A text made of white space only gives no segment, in every mode. *)
Theorem parse_blank_text (text default_voice : str) (delimiter_enabled : bool)
    (delimiter_string : str) (delimiter_voice_sequence : list str) :
  forallb is_space text = true ->
  parse text default_voice delimiter_enabled delimiter_string
    delimiter_voice_sequence = [].
Proof.
  intros Hblank.
  pose proof (blank_has_no_marker text Hblank) as Htags.
  destruct (parse_cases text default_voice delimiter_enabled delimiter_string
              delimiter_voice_sequence)
    as [[Hyes _]|[(_ & _ & _ & ->)|(_ & _ & ->)]]; [congruence| |].
  - unfold delimiter_mode_spec.
    assert (List.filter nonempty (map strip (split text delimiter_string)) = [])
      as ->; [|done].
    apply filter_none.
    intros p (part & <- & Hpart)%in_map_iff.
    rewrite strip_blank; [done|].
    apply forallb_forall. intros c Hc.
    apply list_elem_of_In in Hpart, Hc.
    destruct (split_go_chars _ _ _ _ _ _ Hpart Hc) as [Hnil|Hc'];
      [by apply elem_of_nil in Hnil|].
    rewrite forallb_forall in Hblank. by apply Hblank, list_elem_of_In.
  - by rewrite (strip_blank text Hblank).
Qed.

(** ** What the tag pattern matches *)

Lemma find_spec (needle s : str) :
  forall k, find needle s = Some k ->
            exists rest, s = take k s ++ needle ++ rest.
Proof.
  induction s as [|c s IH]; intros k; cbn [find].
  - destruct (startswith needle []) eqn:Hstart; [|done].
    intros [= <-]. apply startswith_spec in Hstart as [r Hr]. by exists r.
  - destruct (startswith needle (c :: s)) eqn:Hstart.
    + intros [= <-]. apply startswith_spec in Hstart as [r Hr]. by exists r.
    + destruct (find needle s) as [k'|] eqn:Hfind; [|done].
      intros [= <-]. destruct (IH k' eq_refl) as [rest Hrest].
      exists rest. cbn [take app]. by rewrite <- Hrest.
Qed.

Lemma match_at_sound (s name inner : str) (len : nat) :
  match_at s = Some (name, inner, len) ->
  name <> [] /\ forallb is_word name = true
  /\ len = length (TAG_OPEN ++ name ++ [93] ++ inner ++ TAG_CLOSE)
  /\ exists rest, s = (TAG_OPEN ++ name ++ [93] ++ inner ++ TAG_CLOSE) ++ rest.
Proof.
  unfold match_at. destruct (startswith TAG_OPEN s) eqn:Hopen; [|done].
  apply startswith_spec in Hopen as [r ->]. rewrite drop_app_length.
  destruct (span is_word r) as [run rest] eqn:Hspan.
  apply span_spec in Hspan as (-> & Hrun & _).
  destruct run as [|c run]; [done|].
  destruct rest as [|d body]; [done|].
  destruct d as [|p]; [done|].
  repeat match goal with
         | p : positive |- _ => destruct p as [p|p|]; try done
         end.
  destruct (find TAG_CLOSE body) as [k|] eqn:Hfind; [|done].
  intros [= <- <- <-].
  destruct (find_spec _ _ _ Hfind) as [rest Hbody].
  split; [done|]. split; [done|]. split.
  - pose proof (f_equal length Hbody) as Hlen.
    rewrite !length_app, length_take in Hlen.
    rewrite !length_app, length_take.
    change (length TAG_OPEN) with 7%nat.
    change (length TAG_CLOSE) with 8%nat in *. cbn [length]. lia.
  - exists rest. rewrite <- !app_assoc. cbn [app]. by rewrite <- Hbody.
Qed.

Lemma well_placed_weaken (text : str) (from from' : nat)
    (ms : list tag_match) :
  (from' <= from)%nat -> well_placed text from ms -> well_placed text from' ms.
Proof.
  destruct ms as [|m ms]; [done|]. cbn [well_placed].
  intros Hle (H1 & H2). split; [lia|done].
Qed.

Lemma finditer_go_well_placed (text : str) (s : str) :
  forall (pre : str) (pos skip : nat),
  text = pre ++ s -> pos = length pre ->
  well_placed text (pos + skip) (finditer_go pos skip s).
Proof.
  induction s as [|c s IH]; intros pre pos skip Htext Hpos; [done|].
  assert (Htext' : text = (pre ++ [c]) ++ s) by by rewrite <- app_assoc.
  assert (Hpos' : S pos = length (pre ++ [c]))
    by (rewrite length_app; cbn [length]; lia).
  cbn [finditer_go]. destruct skip as [|k].
  - destruct (match_at (c :: s)) as [[[name inner] len]|] eqn:Hm.
    + apply match_at_sound in Hm as (Hname & Hword & Hlen & rest & Hs).
      set (tag := TAG_OPEN ++ name ++ [93] ++ inner ++ TAG_CLOSE) in *.
      assert (Hpositive : (1 <= len)%nat).
      { rewrite Hlen. unfold tag. rewrite length_app.
        change (length TAG_OPEN) with 7%nat. lia. }
      cbn [well_placed m_start m_end m_voice m_inner].
      split; [lia|]. split.
      { rewrite Htext, Hs, !length_app. lia. }
      split; [done|]. split; [done|]. split.
      { unfold slice. replace (pos + len - pos)%nat with len by lia.
        rewrite Htext, Hpos, drop_app_length, Hs, Hlen.
        by rewrite take_app_length. }
      replace (pos + len)%nat with (S pos + (len - 1))%nat by lia.
      by apply (IH (pre ++ [c])).
    + apply (well_placed_weaken _ (S pos + 0)); [lia|].
      by apply (IH (pre ++ [c])).
  - replace (pos + S k)%nat with (S pos + k)%nat by lia.
    by apply (IH (pre ++ [c])).
Qed.

(** The matches of the tag pattern come in order and do not overlap; each
    one lies inside the text and spans the opening marker, a non-empty
    name of word characters, a closing bracket, the inner text and the
    closing marker. *)
Theorem finditer_matches_are_tags (text : str) :
  well_placed text O (finditer text).
Proof. by apply (finditer_go_well_placed text text [] O O). Qed.

(** ** Shape of every run *)

Lemma answer_cases (i : nat) (r : call_result) :
  (exists e, segment_failure i r e) \/ (exists data, answer_audio r = Some data).
Proof.
  destruct r as [e|[|[[|[data|] ps]|] cs]];
    first [ right; eexists; reflexivity | left; eexists; constructor ].
Qed.

Lemma sequential_progresses_are_progress (total_segments i : nat)
    (segments : list segment) :
  forallb is_progress (sequential_progresses total_segments i segments) = true.
Proof.
  apply forallb_forall. intros s Hs. apply list_elem_of_In in Hs.
  unfold sequential_progresses in Hs.
  apply elem_of_lookup_imap in Hs as (k & [v t] & -> & _). reflexivity.
Qed.

(** The loop calls the backend for the segments in order, one progress
    text before each call, and stops at the first call that fails. *)
Lemma sequential_loop_trace (api_key : str) (total_segments : nat) :
  forall (segments : list segment) (i : nat) (combined_audio : bytes)
         (st : wstate),
  exists (n : nat) (r : res bytes),
    sequential_loop api_key total_segments i segments combined_audio st
    = (r,
       mkState
         (signals st ++ sequential_progresses total_segments i (take n segments))
         (calls st ++ take n (sequential_requests api_key segments)))
    /\ (n <= length segments)%nat
    /\ match r with Ok _ => n = length segments | Exn _ => True end.
Proof.
  induction segments as [|[voice text] rest IH]; intros i combined_audio st.
  - exists O, (Ok combined_audio). cbn. unfold mret, M_ret.
    rewrite !app_nil_r. by destruct st.
  - destruct (answer_cases i
                (backend (calls st) (single_voice_request api_key voice text)))
      as [[e He]|[data Hdata]].
    + exists 1%nat, (Exn e).
      rewrite (sequential_loop_stop _ _ _ _ _ _ _ _ _ He).
      cbn [take sequential_requests map length].
      rewrite sequential_progresses_cons. cbn [take]. split; [done|].
      split; [lia|done].
    + rewrite (sequential_loop_step _ _ _ _ _ _ _ _ _ Hdata).
      destruct (IH (S i) (combined_audio ++ data)
                  (mkState
                     (signals st
                      ++ [progress (sequential_progress i total_segments voice)])
                     (calls st ++ [single_voice_request api_key voice text])))
        as (n & r & Hrun & Hn & Hr).
      exists (S n), r. rewrite Hrun. cbn [signals calls].
      change (take (S n) ((voice, text) :: rest))
        with ((voice, text) :: take n rest).
      cbn [sequential_requests map take length].
      rewrite sequential_progresses_cons, <- !app_assoc.
      split; [done|]. split; [lia|]. destruct r; [by rewrite Hr|done].
Qed.

Lemma sequential_run_trace (api_key : str) (segments : list segment)
    (st : wstate) :
  PYDUB_AVAILABLE = true ->
  exists (n : nat) (closing : signal),
    _generate_sequential api_key segments st
    = (Ok tt,
       mkState
         (signals st
          ++ sequential_progresses (length segments) O (take n segments)
          ++ [closing])
         (calls st ++ take n (sequential_requests api_key segments)))
    /\ (n <= length segments)%nat
    /\ is_terminal closing = true
    /\ (is_finished closing = true -> n = length segments).
Proof.
  intros Hpydub. destruct (decide (api_key = [])) as [->|Hkey].
  { rewrite (sequential_client_error_run _ _ Hpydub).
    eexists O, _. rewrite take_0. cbn [sequential_requests map take].
    unfold sequential_progresses. cbn [imap app]. rewrite app_nil_r.
    split; [reflexivity|]. split; [lia|]. by split. }
  rewrite (sequential_run_with_client _ _ _ Hpydub Hkey).
  destruct (sequential_loop_trace api_key (length segments) segments O [] st)
    as (n & r & Hrun & Hn & Hr).
  rewrite Hrun.
  destruct r as [audio|e]; unfold emit; cbn [signals calls];
    rewrite <- app_assoc; eexists n, _; (split; [reflexivity|]); by repeat split.
Qed.

(** Every run of the sequential path, whatever the backend answers, emits
    progress texts and then exactly one closing signal.  The calls it makes
    are those of the first segments, one each and in order, and a success
    signal comes only after the call for the last segment. *)
Theorem sequential_run_shape (api_key : str) (segments : list segment)
    (st : wstate) :
  PYDUB_AVAILABLE = true ->
  exists (n : nat) (closing : signal),
    _generate_sequential api_key segments st
    = (Ok tt,
       mkState
         (signals st
          ++ sequential_progresses (length segments) O (take n segments)
          ++ [closing])
         (calls st ++ take n (sequential_requests api_key segments)))
    /\ (n <= length segments)%nat
    /\ is_terminal closing = true
    /\ (is_finished closing = true -> n = length segments).
Proof. apply sequential_run_trace. Qed.

Lemma multi_voice_run_trace (api_key : str) (segments : list segment)
    (use_native_multispeaker : bool) (st : wstate) :
  exists (texts : list signal) (closing : signal) (sent : list request),
    MultiVoiceTTSWorker_run api_key segments use_native_multispeaker st
    = (Ok tt, mkState (signals st ++ texts ++ [closing]) (calls st ++ sent))
    /\ forallb is_progress texts = true
    /\ is_terminal closing = true
    /\ (length sent <= length segments + 1)%nat
    /\ (forall r, r ∈ sent ->
          r = native_request api_key segments
          \/ r ∈ sequential_requests api_key segments).
Proof.
  assert (Hseq : forall st',
    exists texts closing sent,
      _generate_sequential api_key segments st'
      = (Ok tt, mkState (signals st' ++ texts ++ [closing]) (calls st' ++ sent))
      /\ forallb is_progress texts = true
      /\ is_terminal closing = true
      /\ (length sent <= length segments)%nat
      /\ (forall r, r ∈ sent -> r ∈ sequential_requests api_key segments)).
  { intros st'. destruct PYDUB_AVAILABLE eqn:Hpydub.
    - destruct (sequential_run_trace api_key segments st' Hpydub)
        as (n & closing & Hrun & Hn & Hclosing & _).
      eexists _, closing, _. split; [exact Hrun|].
      split; [apply sequential_progresses_are_progress|]. split; [done|].
      split.
      + rewrite length_take. unfold sequential_requests.
        rewrite length_map. lia.
      + intros r Hr. apply elem_of_take in Hr as (k & Hk & _).
        by eapply list_elem_of_lookup_2.
    - unfold _generate_sequential. rewrite Hpydub. cbn [negb]. unfold emit.
      eexists [], _, []. rewrite !app_nil_r. cbn [app].
      split; [reflexivity|]. split; [done|]. split; [done|].
      split; [cbn [length]; lia|]. intros r Hr. by apply elem_of_nil in Hr. }
  unfold MultiVoiceTTSWorker_run.
  destruct (use_native_multispeaker && _can_use_native_multispeaker segments).
  - destruct (decide (api_key = [])) as [Hnone|Hkey].
    { destruct (Hseq
                  (mkState
                     (signals st
                      ++ [progress (lit "Генерация мультиспикерного аудио...")])
                     (calls st)))
        as (texts & closing & sent & Hrun & Htexts & Hclosing & Hsent & Hin).
      subst api_key. rewrite native_client_error_run, Hrun. cbn [signals calls].
      exists (progress (lit "Генерация мультиспикерного аудио...") :: texts),
        closing, sent.
      rewrite <- !app_assoc. cbn [app forallb is_progress].
      split; [done|]. split; [done|]. split; [done|]. split; [lia|].
      intros r Hr. right. by apply Hin. }
    destruct (native_answer_cases
                (backend (calls st) (native_request api_key segments)))
      as [Hfail|(data & ps & cs & Hr & Hdata)].
    + rewrite (native_failure_run _ _ _ Hkey Hfail).
      destruct (Hseq
                  (mkState
                     (signals st
                      ++ [progress (lit "Генерация мультиспикерного аудио...")])
                     (calls st ++ [native_request api_key segments])))
        as (texts & closing & sent & Hrun & Htexts & Hclosing & Hsent & Hin).
      rewrite Hrun. cbn [signals calls].
      exists (progress (lit "Генерация мультиспикерного аудио...") :: texts),
        closing, (native_request api_key segments :: sent).
      rewrite <- !app_assoc. cbn [app forallb is_progress length].
      split; [done|]. split; [done|]. split; [done|]. split; [lia|].
      intros r [->|Hr]%elem_of_cons; [by left|right; by apply Hin].
    + rewrite (native_success_run _ _ _ _ _ _ Hkey Hr Hdata).
      eexists [_], _, [_]. split; [reflexivity|]. split; [done|].
      split; [done|]. split; [cbn [length]; lia|].
      intros r Hin. apply list_elem_of_singleton in Hin. by left.
  - destruct (Hseq st)
      as (texts & closing & sent & Hrun & Htexts & Hclosing & Hsent & Hin).
    exists texts, closing, sent. split; [done|]. split; [done|].
    split; [done|]. split; [lia|]. intros r Hr. right. by apply Hin.
Qed.

(** Every run of the multi-voice worker emits progress texts and then
    exactly one closing signal, whatever the strategy, the backend and the
    state of the audio library; it sends at most one request per segment,
    and one more when it tries the native strategy. *)
Theorem multi_voice_run_ends_with_one_signal (api_key : str)
    (segments : list segment) (use_native_multispeaker : bool) (st : wstate) :
  exists (texts : list signal) (closing : signal) (sent : list request),
    MultiVoiceTTSWorker_run api_key segments use_native_multispeaker st
    = (Ok tt, mkState (signals st ++ texts ++ [closing]) (calls st ++ sent))
    /\ forallb is_progress texts = true
    /\ is_terminal closing = true
    /\ (length sent <= length segments + 1)%nat.
Proof.
  destruct (multi_voice_run_trace api_key segments use_native_multispeaker st)
    as (texts & closing & sent & Hrun & Htexts & Hclosing & Hsent & _).
  by exists texts, closing, sent.
Qed.

(** A request that yields no segment (a text made of delimiters only, for
    instance) still gets a multi-voice worker.  With the audio library and
    a credential that is not empty, that worker calls nothing and reports
    success with the export of empty audio. *)
Theorem no_segment_reports_empty_audio (self : TextToSpeechCore)
    (text voice : str) (st : wstate) :
  PYDUB_AVAILABLE = true ->
  core_api_key self <> [] ->
  get_delimiter_enabled (settings_manager self) || has_voice_tags text = true ->
  parse text voice (get_delimiter_enabled (settings_manager self))
    (get_delimiter_string (settings_manager self))
    (get_delimiter_voice_sequence (settings_manager self)) = [] ->
  run (create_worker self text voice) st
  = (Ok tt, mkState (signals st ++ [finished (export_wav [])]) (calls st)).
Proof.
  intros Hpydub Hkey Hmulti Hnone. unfold create_worker.
  rewrite Hmulti, Hnone.
  cbn [run]. unfold MultiVoiceTTSWorker_run. rewrite can_use_native_iff.
  assert (size (unique_speakers []) = O) as -> by reflexivity.
  rewrite (bool_decide_eq_false_2 (0 = 2)%nat) by done.
  rewrite andb_false_r, (sequential_run_with_client _ _ _ Hpydub Hkey).
  reflexivity.
Qed.

Lemma unique_speakers_spec (segments : list segment) (v : str) :
  v ∈ unique_speakers segments <-> exists t, (v, t) ∈ segments.
Proof.
  unfold unique_speakers. rewrite elem_of_list_to_set, list_elem_of_fmap.
  split.
  - intros ([v' t] & -> & Hin). by exists t.
  - intros [t Hin]. by exists (v, t).
Qed.

(** When the native strategy is preferred, the credential is not empty
    (so that a client is built), the segments name two voices and the
    backend answers with audio, the worker makes that one call, bound to
    exactly the voices of the segments, and hands the audio of the answer
    on as it is. *)
Theorem native_success_is_one_call (api_key : str) (segments : list segment)
    (st : wstate) (data : bytes) (ps : list part) (cs : list candidate) :
  api_key <> [] ->
  size (unique_speakers segments) = 2%nat ->
  backend (calls st) (native_request api_key segments)
  = returned (content (inline_data data :: ps) :: cs) ->
  data <> [] ->
  MultiVoiceTTSWorker_run api_key segments true st
  = (Ok tt,
     mkState
       (signals st
        ++ [progress (lit "Генерация мультиспикерного аудио...");
            finished data])
       (calls st ++ [native_request api_key segments]))
  /\ r_speech (native_request api_key segments)
     = multi_speaker_voice_config (unique_speakers segments)
  /\ forall v, v ∈ unique_speakers segments <-> exists t, (v, t) ∈ segments.
Proof.
  intros Hkey Htwo Hr Hdata.
  split; [|split; [done|apply unique_speakers_spec]].
  unfold MultiVoiceTTSWorker_run. rewrite can_use_native_iff.
  rewrite (bool_decide_eq_true_2 _ Htwo). cbn [andb].
  by rewrite (native_success_run _ _ _ _ _ _ Hkey Hr Hdata).
Qed.

(** Every run of the single-voice worker emits progress texts and then
    exactly one closing signal, sends at most one request, and a success
    signal never carries empty audio. *)
Theorem single_voice_run_ends_with_one_signal (api_key text voice : str)
    (st : wstate) :
  exists (texts : list signal) (closing : signal) (sent : list request),
    TTSWorker_run api_key text voice st
    = (Ok tt, mkState (signals st ++ texts ++ [closing]) (calls st ++ sent))
    /\ forallb is_progress texts = true
    /\ is_terminal closing = true
    /\ (length sent <= 1)%nat
    /\ closing <> finished [].
Proof.
  assert (Hstop : forall m,
    exists texts closing sent,
      emit (error m) st
      = (Ok tt, mkState (signals st ++ texts ++ [closing]) (calls st ++ sent))
      /\ forallb is_progress texts = true
      /\ is_terminal closing = true
      /\ (length sent <= 1)%nat
      /\ closing <> finished []).
  { intros m. exists [], (error m), []. unfold emit. rewrite app_nil_r.
    cbn [app length]. split; [done|]. split; [done|]. split; [done|].
    split; [lia|done]. }
  unfold TTSWorker_run, try_except.
  destruct (is_valid (validate_api_key api_key)) eqn:Hkey; cbn [negb];
    [|destruct (Hstop (lit "Ошибка API ключа: "
                       ++ message (validate_api_key api_key)))
        as (t & c & q & -> & H); by exists t, c, q].
  rewrite (genai_Client_built _ (valid_key_nonempty _ Hkey)).
  destruct (is_valid (validate_text text)); cbn [negb];
    [|destruct (Hstop (lit "Ошибка текста: " ++ message (validate_text text)))
        as (t & c & q & -> & H); by exists t, c, q].
  destruct (is_valid (validate_voice voice)); cbn [negb];
    [|destruct (Hstop (lit "Ошибка голоса: " ++ message (validate_voice voice)))
        as (t & c & q & -> & H); by exists t, c, q].
  run_monad.
  destruct (backend (calls st) (single_voice_request api_key voice text))
    as [e|[|[[|[d|] ps]|] cs]]; cbn [is_empty_response first_audio_data];
    try destruct (bool_decide_reflect (d = []));
    cbn [signals calls]; rewrite <- ?app_assoc; cbn [app].
  all: first
    [ eexists [_; _], _, [_]; cbn [app]; split; [reflexivity|];
      split; [reflexivity|]; split; [reflexivity|];
      split; [cbn [length]; lia|congruence]
    | eexists [_; _; _], _, [_]; cbn [app]; split; [reflexivity|];
      split; [reflexivity|]; split; [reflexivity|];
      split; [cbn [length]; lia|congruence] ].
Qed.

(** ** The stored voice and delimiter settings *)

Lemma filter_valid_voices (voices : list str) :
  Forall (fun v => is_valid (validate_voice v) = true)
    (List.filter (fun v => is_valid (validate_voice v)) voices).
Proof.
  apply Forall_forall. intros v Hv. apply list_elem_of_In in Hv.
  by apply filter_In in Hv as [_ Hv].
Qed.

Lemma default_voice_valid :
  is_valid (validate_voice AppConfig.DEFAULT_VOICE) = true.
Proof. by vm_compute. Qed.

Lemma stored_voice_sequence_valid (q : qsettings) :
  SettingsManager_get_delimiter_voice_sequence q <> []
  /\ Forall (fun v => is_valid (validate_voice v) = true)
       (SettingsManager_get_delimiter_voice_sequence q).
Proof.
  unfold SettingsManager_get_delimiter_voice_sequence.
  set (voices_str := default [] (q_strings q !! lit "delimiter_voice_sequence")).
  destruct (nonempty voices_str).
  - set (voices := map strip _).
    pose proof (filter_valid_voices voices) as Hvalid.
    destruct (List.filter (fun v => is_valid (validate_voice v)) voices)
      as [|v vs]; [|done].
    split; [done|]. constructor; [apply default_voice_valid|constructor].
  - split; [done|]. constructor; [apply default_voice_valid|constructor].
Qed.

(** Whatever is stored, the voice sequence read from the settings is not
    empty and holds voices of the catalog only. *)
Theorem stored_voice_sequence_is_valid (q : qsettings) :
  SettingsManager_get_delimiter_voice_sequence q <> []
  /\ Forall (fun v => is_valid (validate_voice v) = true)
       (SettingsManager_get_delimiter_voice_sequence q).
Proof. apply stored_voice_sequence_valid. Qed.

Lemma catalog_names_clean :
  forallb (fun v => nonempty v
                    && forallb (fun c => negb (is_space c) && negb (c =? 44)) v)
    AppConfig.VOICES = true.
Proof. by vm_compute. Qed.

Lemma valid_voice_clean (v : str) :
  is_valid (validate_voice v) = true ->
  v <> [] /\ strip v = v /\ 44 ∉ v.
Proof.
  rewrite validate_voice_catalog, bool_decide_eq_true. intros Hin.
  pose proof catalog_names_clean as Hclean.
  rewrite forallb_forall in Hclean.
  specialize (Hclean v (proj1 (list_elem_of_In _ _) Hin)).
  apply andb_true_iff in Hclean as [Hne Hchars].
  rewrite forallb_forall in Hchars.
  split; [by destruct v|]. split.
  - apply strip_no_space, forallb_forall. intros c Hc.
    by destruct (andb_prop _ _ (Hchars c Hc)).
  - intros Hcomma. apply list_elem_of_In in Hcomma.
    by destruct (andb_prop _ _ (Hchars 44 Hcomma)).
Qed.

Lemma split_go_run (c : N) (x : str) :
  c ∉ x ->
  forall cur rest,
  split_go [c] O cur (x ++ rest) = split_go [c] O (cur ++ x) rest.
Proof.
  induction x as [|d x IH]; intros Hx cur rest.
  - by rewrite app_nil_r.
  - apply not_elem_of_cons in Hx as [Hd Hx].
    cbn [app split_go startswith]. rewrite (proj2 (N.eqb_neq c d) Hd).
    cbn [andb]. rewrite (IH Hx), <- app_assoc. reflexivity.
Qed.

Lemma split_go_separator (c : N) (cur rest : str) :
  split_go [c] O cur (c :: rest) = cur :: split_go [c] O [] rest.
Proof. cbn [split_go startswith length Nat.sub]. by rewrite N.eqb_refl. Qed.

(** Joining with a one-character separator and splitting again gives the
    list back, when no item holds the separator. *)
Lemma split_join (c : N) (x : str) (xs : list str) :
  Forall (fun y => c ∉ y) (x :: xs) ->
  split (join [c] (x :: xs)) [c] = x :: xs.
Proof.
  unfold split. revert x. induction xs as [|y ys IH]; intros x Hall.
  - cbn [join]. apply Forall_cons in Hall as [Hx _].
    pose proof (split_go_run c x Hx [] []) as Hrun.
    rewrite app_nil_r in Hrun. by rewrite Hrun.
  - apply Forall_cons in Hall as [Hx Hall].
    change (join [c] (x :: y :: ys)) with (x ++ [c] ++ join [c] (y :: ys)).
    rewrite (split_go_run c x Hx). cbn [app].
    by rewrite split_go_separator, (IH y Hall).
Qed.

Lemma filter_all (f : str -> bool) (xs : list str) :
  Forall (fun x => f x = true) xs -> List.filter f xs = xs.
Proof.
  induction 1 as [|x xs Hx _ IH]; [done|]. cbn [List.filter].
  by rewrite Hx, IH.
Qed.

Lemma map_fixed (f : str -> str) (xs : list str) :
  Forall (fun x => f x = x) xs -> map f xs = xs.
Proof. induction 1 as [|x xs Hx _ IH]; [done|]. cbn [map]. by rewrite Hx, IH. Qed.

Lemma join_nonempty (sep x : str) (xs : list str) :
  x <> [] -> join sep (x :: xs) <> [].
Proof. destruct x; [done|]. intros _. by destruct xs. Qed.

(** The voice sequence read after [set_delimiter_voice_sequence] is the
    list of the catalog voices among those given, in their order, or the
    default voice alone when none of them is in the catalog. *)
Theorem voice_sequence_round_trip (q : qsettings) (voices : list str) :
  SettingsManager_get_delimiter_voice_sequence
    (SettingsManager_set_delimiter_voice_sequence q voices)
  = match List.filter (fun v => is_valid (validate_voice v)) voices with
    | [] => [AppConfig.DEFAULT_VOICE]
    | v :: vs => v :: vs
    end.
Proof.
  unfold SettingsManager_set_delimiter_voice_sequence.
  pose proof (filter_valid_voices voices) as Hvalid.
  destruct (List.filter (fun v => is_valid (validate_voice v)) voices)
    as [|v vs] eqn:Hfilter;
    unfold SettingsManager_get_delimiter_voice_sequence;
    cbn [q_strings]; rewrite lookup_insert_eq; unfold default; cbn [from_option id].
  - by vm_compute.
  - assert (Hclean : Forall (fun x => x <> [] /\ strip x = x /\ 44 ∉ x) (v :: vs)).
    { eapply Forall_impl; [exact Hvalid|]. apply valid_voice_clean. }
    assert (Hne : nonempty (join (lit ",") (v :: vs)) = true).
    { pose proof (join_nonempty (lit ",") v vs) as Hj.
      destruct (join (lit ",") (v :: vs));
        [exfalso; apply Hj; [by inversion Hclean as [|? ? [? _]]|done]|done]. }
    rewrite Hne.
    change (lit ",") with [44].
    rewrite split_join
      by (eapply Forall_impl; [exact Hclean|]; by intros x (_ & _ & ?)).
    rewrite (filter_all (fun x => nonempty (strip x)) (v :: vs)).
    2:{ eapply Forall_impl; [exact Hclean|]. intros x (Hx & -> & _).
        by destruct x. }
    rewrite (map_fixed strip (v :: vs))
      by (eapply Forall_impl; [exact Hclean|]; by intros x (_ & ? & _)).
    by rewrite (filter_all _ _ Hvalid).
Qed.

Lemma delimiter_string_set_get (q : qsettings) (delimiter : str) :
  SettingsManager_get_delimiter_string
    (SettingsManager_set_delimiter_string q delimiter)
  = if acceptable_delimiter delimiter then delimiter
    else SettingsManager_get_delimiter_string q.
Proof.
  unfold SettingsManager_set_delimiter_string, acceptable_delimiter.
  destruct (nonempty delimiter
            && (length delimiter <=? AppConfig.MAX_DELIMITER_LENGTH)%nat);
    [|done].
  unfold SettingsManager_get_delimiter_string. cbn [q_strings].
  by rewrite lookup_insert_eq.
Qed.

(** [set_delimiter_string] stores a delimiter of 1 to 10 characters and
    ignores any other, so a delimiter read after it is the one given or
    the one read before.  Starting from settings whose delimiter reads as
    such a string (empty settings read as the default delimiter), it still
    does after any number of calls. *)
Theorem delimiter_string_stays_acceptable (q : qsettings)
    (delimiters : list str) :
  (forall delimiter,
     SettingsManager_get_delimiter_string
       (SettingsManager_set_delimiter_string q delimiter)
     = if acceptable_delimiter delimiter then delimiter
       else SettingsManager_get_delimiter_string q)
  /\ acceptable_delimiter
       (SettingsManager_get_delimiter_string (mkQSettings ∅ ∅ ∅)) = true
  /\ (acceptable_delimiter (SettingsManager_get_delimiter_string q) = true ->
      acceptable_delimiter
        (SettingsManager_get_delimiter_string
           (fold_left SettingsManager_set_delimiter_string delimiters q))
      = true).
Proof.
  split; [apply delimiter_string_set_get|]. split; [by vm_compute|].
  revert q. induction delimiters as [|d ds IH]; intros q Hq; [done|].
  cbn [fold_left]. apply IH. rewrite delimiter_string_set_get.
  by destruct (acceptable_delimiter d) eqn:Hd.
Qed.

(** The last voice read from the settings is always a voice of the
    catalog.  [set_last_voice] refuses a voice that is not, leaving the
    settings as they are; a voice of the catalog is stored and read back. *)
Theorem last_voice_is_in_catalog (q : qsettings) (voice : str) :
  SettingsManager_get_last_voice q ∈ AppConfig.VOICES
  /\ (voice ∉ AppConfig.VOICES ->
      SettingsManager_set_last_voice q voice = (q, false))
  /\ (voice ∈ AppConfig.VOICES ->
      snd (SettingsManager_set_last_voice q voice) = true
      /\ SettingsManager_get_last_voice
           (fst (SettingsManager_set_last_voice q voice)) = voice).
Proof.
  split; [|split].
  - unfold SettingsManager_get_last_voice, AppConfig_validate_voice.
    case_bool_decide; [done|]. apply (bool_decide_unpack _). by vm_compute.
  - intros Hout. unfold SettingsManager_set_last_voice.
    rewrite validate_voice_catalog. by rewrite bool_decide_eq_false_2.
  - intros Hin. unfold SettingsManager_set_last_voice.
    rewrite validate_voice_catalog, (bool_decide_eq_true_2 _ Hin).
    cbn [negb fst snd]. split; [done|].
    unfold SettingsManager_get_last_voice. cbn [q_strings].
    rewrite lookup_insert_eq. unfold default; cbn [from_option id].
    unfold AppConfig_validate_voice. by rewrite bool_decide_eq_true_2.
Qed.

(** ** The generate action, end to end *)

Lemma validate_request_valid (text voice : str) :
  is_valid (validate_request text voice)
  = is_valid (validate_text text) && is_valid (validate_voice voice).
Proof.
  unfold validate_request.
  destruct (is_valid (validate_text text)) eqn:Ht; cbn [negb andb]; [|done].
  by destruct (is_valid (validate_voice voice)) eqn:Hv.
Qed.

Lemma sequential_requests_validated (api_key : str) (segments : list segment) :
  is_valid (validate_api_key api_key) = true ->
  Forall (fun s : segment => is_valid (validate_voice (fst s)) = true) segments ->
  forall r, r ∈ sequential_requests api_key segments -> request_validated r.
Proof.
  intros Hkey Hvoices r Hr. unfold sequential_requests in Hr.
  apply list_elem_of_fmap in Hr as ([v t] & -> & Hin).
  rewrite Forall_forall in Hvoices. split; [done|]. exact (Hvoices _ Hin).
Qed.

Lemma native_request_validated (api_key : str) (segments : list segment) :
  is_valid (validate_api_key api_key) = true ->
  Forall (fun s : segment => is_valid (validate_voice (fst s)) = true) segments ->
  request_validated (native_request api_key segments).
Proof.
  intros Hkey Hvoices. split; [done|]. cbn [native_request r_speech].
  intros v [t Hin]%unique_speakers_spec.
  rewrite Forall_forall in Hvoices. exact (Hvoices _ Hin).
Qed.

(** Through the generate action, with a core built by the constructor and
    the settings read from the settings manager, every request a started
    worker sends carries a credential and voices that pass the validators,
    whatever the input text and the backend. *)
Theorem generate_speech_sends_validated_requests (api_key : str)
    (q : qsettings) (core : TextToSpeechCore) (text_input voice : str)
    (w : worker) (st : wstate) :
  TextToSpeechCore_init api_key (settings_read q) = Some core ->
  _generate_speech (Some core) text_input voice = started w ->
  exists sent,
    calls (snd (run w st)) = calls st ++ sent
    /\ Forall request_validated sent.
Proof.
  unfold TextToSpeechCore_init, _generate_speech.
  destruct (is_valid (validate_api_key api_key)) eqn:Hkey; [|done].
  rewrite (genai_Client_built _ (valid_key_nonempty _ Hkey)).
  cbn [negb]. intros [= <-].
  destruct (is_valid (validate_request (strip text_input) voice)) eqn:Hreq;
    [|done].
  cbn [negb]. intros [= <-].
  rewrite validate_request_valid in Hreq.
  apply andb_true_iff in Hreq as [Htext Hvoice].
  unfold create_worker. cbn [settings_manager core_api_key].
  destruct (get_delimiter_enabled (settings_read q)
            || has_voice_tags (strip text_input)).
  - cbn [run].
    set (segments := parse _ _ _ _ _).
    assert (Hvoices :
      Forall (fun s : segment => is_valid (validate_voice (fst s)) = true)
        segments).
    { apply parse_voices_known; [done|].
      apply stored_voice_sequence_valid. }
    destruct (multi_voice_run_trace api_key segments
                (get_use_native_multispeaker (settings_read q)) st)
      as (texts & closing & sent & Hrun & _ & _ & _ & Hsent).
    rewrite Hrun. exists sent. split; [done|].
    apply Forall_forall. intros r [->|Hr]%Hsent.
    + exact (native_request_validated _ _ Hkey Hvoices).
    + exact (sequential_requests_validated _ _ Hkey Hvoices r Hr).
  - cbn [run].
    destruct (TTSWorker_run_calls_once api_key (strip text_input) voice st
                Hkey Htext Hvoice) as (rest & Hrun & _).
    rewrite Hrun. eexists. split; [reflexivity|].
    constructor; [|constructor]. split; [exact Hkey|exact Hvoice].
Qed.

(** ** Validation before the multi-voice worker *)

(** Whatever the text, the worker that [create_worker] returns on a core
    whose credential passes the check, for a voice of the catalog, sends
    only requests whose credential and voices pass the validators. *)
Lemma created_worker_requests_validated (api_key : str) (q : qsettings)
    (text voice : str) (st : wstate) :
  is_valid (validate_api_key api_key) = true ->
  is_valid (validate_voice voice) = true ->
  exists sent,
    calls (snd (run (create_worker (mkCore api_key (settings_read q)) text voice)
                  st))
    = calls st ++ sent
    /\ Forall request_validated sent.
Proof.
  intros Hkey Hvoice. unfold create_worker. cbn [settings_manager core_api_key].
  destruct (get_delimiter_enabled (settings_read q) || has_voice_tags text).
  - cbn [run].
    set (segments := parse _ _ _ _ _).
    assert (Hvoices :
      Forall (fun s : segment => is_valid (validate_voice (fst s)) = true)
        segments).
    { apply parse_voices_known; [done|].
      apply stored_voice_sequence_valid. }
    destruct (multi_voice_run_trace api_key segments
                (get_use_native_multispeaker (settings_read q)) st)
      as (texts & closing & sent & Hrun & _ & _ & _ & Hsent).
    rewrite Hrun. exists sent. split; [done|].
    apply Forall_forall. intros r [->|Hr]%Hsent.
    + exact (native_request_validated _ _ Hkey Hvoices).
    + exact (sequential_requests_validated _ _ Hkey Hvoices r Hr).
  - cbn [run]. destruct (is_valid (validate_text text)) eqn:Htext.
    + destruct (TTSWorker_run_calls_once api_key text voice st
                  Hkey Htext Hvoice) as (rest & Hrun & _).
      rewrite Hrun. eexists. split; [reflexivity|].
      constructor; [|constructor]. split; [exact Hkey|exact Hvoice].
    + exists []. unfold TTSWorker_run, try_except. rewrite Hkey, Htext.
      cbn [negb]. unfold emit. cbn [snd calls]. by rewrite app_nil_r.
Qed.

Lemma built_core (api_key : str) (settings_manager : settings)
    (core : TextToSpeechCore) :
  TextToSpeechCore_init api_key settings_manager = Some core ->
  is_valid (validate_api_key api_key) = true
  /\ core = mkCore api_key settings_manager.
Proof.
  unfold TextToSpeechCore_init.
  destruct (is_valid (validate_api_key api_key)) eqn:Hkey; [|done].
  rewrite (genai_Client_built _ (valid_key_nonempty _ Hkey)).
  cbn [negb]. by intros [= <-].
Qed.

(** C1.  The multi-voice worker runs no check of its own; it is built by
    [create_worker] alone, on a core whose constructor has checked the
    credential.  In the generate action a credential, a text or a voice
    that fails its check ends the request with an error message and no
    worker, hence no call.  A multi-voice worker the action starts holds
    the checked credential and the segments of the checked text, each with
    a voice that passes the check.  And whatever text [create_worker] is
    given on such a core with a voice of the catalog, every request of the
    worker it returns carries a credential and voices that pass the
    checks. *)
Theorem multi_voice_requests_are_validated_first (api_key : str)
    (q : qsettings) (text_input voice : str) :
  let tts_core := TextToSpeechCore_init api_key (settings_read q) in
  let text := strip text_input in
  let outcome := _generate_speech tts_core text_input voice in
  (is_valid (validate_api_key api_key) = false
   \/ is_valid (validate_text text) = false
   \/ is_valid (validate_voice voice) = false ->
   exists m, outcome = show_error m)
  /\ (forall k segments use_native,
        outcome = started (MultiVoiceTTSWorker k segments use_native) ->
        k = api_key
        /\ is_valid (validate_api_key k) = true
        /\ is_valid (validate_text text) = true
        /\ segments
           = parse text voice (SettingsManager_get_delimiter_enabled q)
               (SettingsManager_get_delimiter_string q)
               (SettingsManager_get_delimiter_voice_sequence q)
        /\ Forall (fun s : segment => is_valid (validate_voice (fst s)) = true)
             segments)
  /\ (forall core any_text st,
        tts_core = Some core ->
        is_valid (validate_voice voice) = true ->
        exists sent,
          calls (snd (run (create_worker core any_text voice) st))
          = calls st ++ sent
          /\ Forall request_validated sent).
Proof.
  intros tts_core text outcome. split; [|split].
  - intros Hbad. subst outcome. unfold _generate_speech.
    destruct tts_core as [core|] eqn:Hcore; [|by eexists].
    apply built_core in Hcore as [Hkey _].
    rewrite validate_request_valid. fold text.
    destruct Hbad as [Hbad|[Hbad|Hbad]]; [congruence| |].
    + rewrite Hbad. cbn [andb negb]. by eexists.
    + rewrite Hbad, andb_false_r. cbn [negb]. by eexists.
  - intros k segments use_native. subst outcome. unfold _generate_speech.
    destruct tts_core as [core|] eqn:Hcore; [|done].
    apply built_core in Hcore as [Hkey ->].
    fold text.
    destruct (is_valid (validate_request text voice)) eqn:Hreq;
      cbn [negb]; [|done].
    rewrite validate_request_valid in Hreq.
    apply andb_true_iff in Hreq as [Htext Hvoice].
    unfold create_worker. cbn [settings_manager core_api_key settings_read
      get_delimiter_enabled get_delimiter_string get_delimiter_voice_sequence
      get_use_native_multispeaker].
    destruct (SettingsManager_get_delimiter_enabled q || has_voice_tags text);
      [|done].
    intros [= <- <- _]. split; [done|]. split; [done|]. split; [done|].
    split; [done|].
    apply parse_voices_known; [done|]. apply stored_voice_sequence_valid.
  - intros core any_text st Hcore Hvoice.
    apply built_core in Hcore as [Hkey ->].
    by apply created_worker_requests_validated.
Qed.

(** ** File names *)

Lemma replace_forbidden_clean (s : str) :
  forallb (fun c => negb (is_forbidden_filename_char c)) (replace_forbidden s)
  = true.
Proof.
  induction s as [|c s IH]; [done|]. cbn [replace_forbidden map forallb].
  fold (replace_forbidden s). rewrite IH, andb_true_r.
  by destruct (is_forbidden_filename_char c) eqn:Hc; [|rewrite Hc].
Qed.

Lemma collapse_fillers_keeps_clean (s : str) :
  forall in_run,
  forallb (fun c => negb (is_forbidden_filename_char c)) s = true ->
  forallb (fun c => negb (is_forbidden_filename_char c))
    (collapse_fillers in_run s) = true.
Proof.
  induction s as [|c s IH]; intros in_run; [done|].
  cbn [forallb collapse_fillers]. intros [Hc Hs]%andb_true_iff.
  destruct (is_filler c), in_run; cbn [forallb]; rewrite ?Hc, ?(IH _ Hs); done.
Qed.

Lemma collapse_fillers_tidy (s : str) :
  forall in_run, tidy in_run (collapse_fillers in_run s) = true.
Proof.
  induction s as [|c s IH]; intros in_run; [done|]. cbn [collapse_fillers].
  destruct (is_filler c) eqn:Hc.
  - destruct in_run; [apply IH|]. cbn [tidy andb]. apply (IH true).
  - cbn [tidy]. unfold is_filler in Hc. apply orb_false_iff in Hc as [Hu Hs].
    rewrite Hs, Hu, andb_false_r. cbn [negb andb]. apply (IH false).
Qed.

Lemma tidy_weaken (s : str) (b : bool) : tidy b s = true -> tidy false s = true.
Proof.
  destruct s as [|c s]; [done|]. cbn [tidy andb].
  intros [[Hs _]%andb_true_iff Ht]%andb_true_iff. by rewrite Hs, Ht.
Qed.

Lemma collapse_fillers_fixed (s : str) :
  forall b, tidy b s = true -> collapse_fillers b s = s.
Proof.
  induction s as [|c s IH]; intros b; [done|]. cbn [tidy collapse_fillers].
  intros [[Hs Hu]%andb_true_iff Ht]%andb_true_iff.
  apply negb_true_iff in Hs. unfold is_filler. rewrite Hs, orb_false_r.
  destruct (c =? 95) eqn:Hc.
  - destruct b; [done|]. apply N.eqb_eq in Hc as ->. by rewrite (IH true Ht).
  - by rewrite (IH false Ht).
Qed.

Lemma lstrip_underscores_suffix (s : str) :
  exists pre, s = pre ++ lstrip_underscores s.
Proof.
  induction s as [|c s [pre IH]]; [by exists []|]. cbn [lstrip_underscores].
  destruct (c =? 95); [|by exists []].
  exists (c :: pre). cbn [app]. by rewrite <- IH.
Qed.

Lemma rstrip_underscores_prefix (s : str) :
  exists post, s = rstrip_underscores s ++ post.
Proof.
  induction s as [|c s [post IH]]; [by exists []|]. cbn [rstrip_underscores].
  destruct (rstrip_underscores s) as [|d r] eqn:Hr.
  - destruct (c =? 95); [by exists (c :: s)|].
    exists post. cbn [app] in *. by f_equal.
  - exists post. cbn [app] in *. by f_equal.
Qed.

Lemma tidy_app_r (a s : str) (b : bool) :
  tidy b (a ++ s) = true -> tidy false s = true.
Proof.
  revert b. induction a as [|c a IH]; intros b; [apply tidy_weaken|].
  cbn [app tidy]. intros [_ Ht]%andb_true_iff. by apply (IH _ Ht).
Qed.

Lemma tidy_app_l (s post : str) (b : bool) :
  tidy b (s ++ post) = true -> tidy b s = true.
Proof.
  revert b. induction s as [|c s IH]; intros b; [done|].
  cbn [app tidy]. intros [Hc Ht]%andb_true_iff. by rewrite Hc, (IH _ Ht).
Qed.

Lemma lstrip_underscores_head (s : str) :
  head (lstrip_underscores s) <> Some 95.
Proof.
  induction s as [|c s IH]; [done|]. cbn [lstrip_underscores].
  destruct (c =? 95) eqn:Hc; [done|]. cbn. intros [= ->]. by vm_compute in Hc.
Qed.

Lemma rstrip_underscores_head (s : str) :
  rstrip_underscores s = [] \/ head (rstrip_underscores s) = head s.
Proof.
  destruct s as [|c s]; [by left|]. cbn [rstrip_underscores].
  destruct (rstrip_underscores s); [|by right].
  destruct (c =? 95); [by left|by right].
Qed.

Lemma rstrip_underscores_last (s : str) :
  last (rstrip_underscores s) <> Some 95.
Proof.
  induction s as [|c s IH]; [done|]. cbn [rstrip_underscores].
  destruct (rstrip_underscores s) as [|d r] eqn:Hr.
  - destruct (c =? 95) eqn:Hc; [done|]. cbn. intros [= ->]. by vm_compute in Hc.
  - by rewrite last_cons_cons.
Qed.

Lemma lstrip_underscores_fixed (s : str) :
  head s <> Some 95 -> lstrip_underscores s = s.
Proof.
  destruct s as [|c s]; [done|]. cbn. intros Hc.
  destruct (N.eqb_spec c 95) as [->|_]; [done|done].
Qed.

Lemma rstrip_underscores_fixed (s : str) :
  last s <> Some 95 -> rstrip_underscores s = s.
Proof.
  induction s as [|c s IH]; [done|]. intros Hlast. cbn [rstrip_underscores].
  destruct s as [|d s].
  - cbn in *. destruct (N.eqb_spec c 95) as [->|_]; [done|done].
  - rewrite last_cons_cons in Hlast. rewrite (IH Hlast). reflexivity.
Qed.

Lemma strip_underscores_idempotent (s : str) :
  strip_underscores (strip_underscores s) = strip_underscores s.
Proof.
  unfold strip_underscores.
  assert (Hhead : head (rstrip_underscores (lstrip_underscores s)) <> Some 95).
  { destruct (rstrip_underscores_head (lstrip_underscores s)) as [->| ->];
      [done|apply lstrip_underscores_head]. }
  rewrite (lstrip_underscores_fixed _ Hhead).
  apply rstrip_underscores_fixed, rstrip_underscores_last.
Qed.

Lemma forallb_app_inv {A} (f : A -> bool) (a b c : list A) :
  forallb f (a ++ b ++ c) = true -> forallb f b = true.
Proof.
  rewrite !forallb_app. intros [_ [H _]%andb_true_iff]%andb_true_iff. exact H.
Qed.

Lemma strip_underscores_middle (s : str) :
  exists pre post, s = pre ++ strip_underscores s ++ post.
Proof.
  unfold strip_underscores.
  destruct (lstrip_underscores_suffix s) as [pre Hpre].
  destruct (rstrip_underscores_prefix (lstrip_underscores s)) as [post Hpost].
  exists pre, post. by rewrite <- Hpost.
Qed.

Lemma sanitize_fixed (s : str) :
  s <> [] ->
  forallb (fun c => negb (is_forbidden_filename_char c)) s = true ->
  tidy false s = true ->
  strip_underscores s = s ->
  sanitize_filename s = s.
Proof.
  intros Hne Hclean Htidy Hstrip. unfold sanitize_filename.
  assert (replace_forbidden s = s) as ->.
  { clear -Hclean. induction s as [|c s IH]; [done|].
    cbn [forallb] in Hclean. apply andb_true_iff in Hclean as [Hc Hs].
    cbn [replace_forbidden map]. fold (replace_forbidden s).
    apply negb_true_iff in Hc. by rewrite Hc, (IH Hs). }
  rewrite (collapse_fillers_fixed _ _ Htidy), Hstrip. by destruct s.
Qed.

(** The name [sanitize_filename] returns is never empty, holds no
    forbidden character and no white space, has no two underscores in a
    row, neither starts nor ends with an underscore, and is left unchanged
    by a second pass. *)
Theorem sanitize_filename_result (filename : str) :
  let name := sanitize_filename filename in
  name <> []
  /\ forallb (fun c => negb (is_forbidden_filename_char c)) name = true
  /\ tidy false name = true
  /\ head name <> Some 95
  /\ last name <> Some 95
  /\ sanitize_filename name = name.
Proof.
  cbv zeta.
  set (collapsed := collapse_fillers false (replace_forbidden filename)).
  assert (Hcases :
    sanitize_filename filename = lit "audio_file"
    \/ (sanitize_filename filename = strip_underscores collapsed
        /\ strip_underscores collapsed <> [])).
  { unfold sanitize_filename. fold collapsed.
    destruct (strip_underscores collapsed); [by left|by right]. }
  destruct Hcases as [-> | [-> Hne]].
  { vm_compute. repeat split; first [reflexivity | intros; discriminate]. }
  assert (Hclean : forallb (fun c => negb (is_forbidden_filename_char c))
                     collapsed = true)
    by apply collapse_fillers_keeps_clean, replace_forbidden_clean.
  assert (Htidy : tidy false collapsed = true) by apply collapse_fillers_tidy.
  destruct (strip_underscores_middle collapsed) as (pre & post & Hmid).
  assert (Hclean' : forallb (fun c => negb (is_forbidden_filename_char c))
                      (strip_underscores collapsed) = true).
  { rewrite Hmid in Hclean. by apply forallb_app_inv in Hclean. }
  assert (Htidy' : tidy false (strip_underscores collapsed) = true).
  { rewrite Hmid in Htidy. by apply tidy_app_r, tidy_app_l in Htidy. }
  split; [done|]. split; [done|]. split; [done|].
  split.
  { unfold strip_underscores in *.
    destruct (rstrip_underscores_head (lstrip_underscores collapsed))
      as [Hnil| ->]; [done|apply lstrip_underscores_head]. }
  split; [apply rstrip_underscores_last|].
  apply sanitize_fixed; [done|done|done|].
  apply strip_underscores_idempotent.
Qed.

(** ** The text check and the counter *)

Lemma existsb_negb_forallb {A} (f : A -> bool) (l : list A) :
  existsb (fun x => negb (f x)) l = negb (forallb f l).
Proof.
  induction l as [|x l IH]; [done|]. cbn [existsb forallb].
  rewrite IH. by destruct (f x).
Qed.

Lemma validate_text_accepts (text : str) :
  nonempty (strip text) = true ->
  (length (strip text) <= AppConfig.MAX_TEXT_LENGTH)%nat ->
  forallb text_char_allowed text = true ->
  is_valid (validate_text text) = true.
Proof.
  intros Hstrip Hlen Hchars. unfold validate_text.
  assert (nonempty text = true) as ->.
  { destruct text; [by rewrite strip_nil in Hstrip|done]. }
  rewrite Hstrip. cbn [negb orb].
  rewrite (proj2 (Nat.ltb_ge _ _) Hlen).
  by rewrite existsb_negb_forallb, Hchars.
Qed.

Lemma word_chars_allowed (name : str) :
  forallb is_word name = true -> forallb text_char_allowed name = true.
Proof.
  rewrite !forallb_forall. intros H c Hc. unfold text_char_allowed.
  rewrite (H c Hc). by rewrite orb_true_r.
Qed.

(** The markup of a voice tag never makes a text fail the check: a text
    of allowed characters with a tag in it, of at most 5000 characters, is
    accepted. *)
Theorem tagged_text_passes_validation (pre name inner post : str) :
  forallb text_char_allowed pre = true ->
  forallb is_word name = true ->
  forallb text_char_allowed inner = true ->
  forallb text_char_allowed post = true ->
  Nat.le
    (length (pre ++ TAG_OPEN ++ name ++ [93] ++ inner ++ TAG_CLOSE ++ post))
    AppConfig.MAX_TEXT_LENGTH ->
  is_valid
    (validate_text (pre ++ TAG_OPEN ++ name ++ [93] ++ inner ++ TAG_CLOSE ++ post))
  = true.
Proof.
  intros Hpre Hname Hinner Hpost Hlen.
  set (text := pre ++ TAG_OPEN ++ name ++ [93] ++ inner ++ TAG_CLOSE ++ post) in *.
  assert (Htag : contains TAG_OPEN text = true).
  { apply contains_spec. by eexists pre, _. }
  apply validate_text_accepts.
  - apply contains_tag_open_strip in Htag. by destruct (strip text).
  - pose proof (strip_length text). lia.
  - unfold text. rewrite !forallb_app, Hpre, Hinner, Hpost.
    rewrite (word_chars_allowed name Hname). by vm_compute.
Qed.

Lemma colors_differ :
  AppConfig.Colors.WARNING <> AppConfig.Colors.DANGER
  /\ AppConfig.Colors.DARK_TEXT_MUTED <> AppConfig.Colors.DANGER.
Proof. split; by vm_compute. Qed.

(** The counter turns to the danger colour exactly above 5000 characters
    of the raw text.  The check measures the trimmed text, so a text the
    counter does not flag never fails the check for its length: if it is
    not blank and made of allowed characters, it is accepted. *)
Theorem length_counter_is_stricter_than_check (text : str) :
  (snd (get_text_length_status text) = AppConfig.Colors.DANGER
   <-> (AppConfig.MAX_TEXT_LENGTH < length text)%nat)
  /\ (snd (get_text_length_status text) <> AppConfig.Colors.DANGER ->
      nonempty (strip text) = true ->
      forallb text_char_allowed text = true ->
      is_valid (validate_text text) = true).
Proof.
  destruct colors_differ as [Hwarn Hmuted].
  assert (Hcolor :
    snd (get_text_length_status text) = AppConfig.Colors.DANGER
    <-> (AppConfig.MAX_TEXT_LENGTH < length text)%nat).
  { unfold get_text_length_status. destruct text as [|c text].
    - cbn [nonempty negb snd length]. split; [done|].
      unfold AppConfig.MAX_TEXT_LENGTH. lia.
    - cbn [nonempty negb].
      destruct (Nat.ltb_spec AppConfig.MAX_TEXT_LENGTH (length (c :: text)));
        [done|].
      destruct (AppConfig.TEXT_WARNING_LENGTH <? length (c :: text))%nat;
        cbn [snd]; (split; [done|lia]). }
  split; [exact Hcolor|]. intros Hnot Hstrip Hchars.
  apply validate_text_accepts; [done| |done].
  pose proof (strip_length text).
  destruct (Nat.le_gt_cases (length text) AppConfig.MAX_TEXT_LENGTH); [lia|].
  exfalso. by apply Hnot, Hcolor.
Qed.

(** ** The player *)

Lemma load_audio_data_fields (self : AudioPlayer) (audio_data : bytes)
    (temp_path : res str) (saved : ValidationResult) :
  current_audio_data (fst (load_audio_data self audio_data temp_path saved))
  = Some audio_data
  /\ temp_files (fst (load_audio_data self audio_data temp_path saved))
     = temp_files self
       ++ match temp_path with Ok p => [p] | Exn _ => [] end.
Proof.
  unfold load_audio_data. destruct temp_path as [p|e]; cbn.
  - by destruct (is_valid saved).
  - by rewrite app_nil_r.
Qed.

Lemma created_paths_cons (a : load_attempt) (attempts : list load_attempt) :
  created_paths (a :: attempts)
  = match attempt_temp_path a with Ok p => [p] | Exn _ => [] end
    ++ created_paths attempts.
Proof.
  unfold created_paths. simpl. by destruct (attempt_temp_path a).
Qed.

Lemma load_all_temp_files (attempts : list load_attempt) :
  forall self,
  temp_files (load_all self attempts)
  = temp_files self ++ created_paths attempts.
Proof.
  induction attempts as [|a attempts IH]; intros self.
  - cbn. by rewrite app_nil_r.
  - unfold load_all in *. cbn [fold_left]. rewrite IH.
    rewrite (proj2 (load_audio_data_fields _ _ _ _)).
    by rewrite created_paths_cons, <- app_assoc.
Qed.

(** After [load_audio_data], [play] starts exactly when the audio given is
    not empty, whether the load succeeded or not; after [cleanup] it is
    refused.  Every load whose temporary file was created leaves that file
    tracked, so the files of all the loads wait for [cleanup], which asks
    to remove them all and forgets them. *)
Theorem player_state_after_loads (self : AudioPlayer) (audio_data : bytes)
    (temp_path : res str) (saved : ValidationResult)
    (attempts : list load_attempt) :
  is_valid
    (AudioPlayer_play (fst (load_audio_data self audio_data temp_path saved)))
  = bool_decide (audio_data <> [])
  /\ is_valid (AudioPlayer_play (fst (AudioPlayer_cleanup self))) = false
  /\ temp_files (load_all self attempts)
     = temp_files self ++ created_paths attempts
  /\ snd (AudioPlayer_cleanup (load_all self attempts))
     = temp_files self ++ created_paths attempts
  /\ temp_files (fst (AudioPlayer_cleanup (load_all self attempts))) = [].
Proof.
  split; [|split; [done|]].
  - unfold AudioPlayer_play.
    rewrite (proj1 (load_audio_data_fields _ _ _ _)).
    by destruct audio_data.
  - split; [apply load_all_temp_files|]. split; [|done].
    cbn [AudioPlayer_cleanup snd]. apply load_all_temp_files.
Qed.

(** ** What the generate action lets through *)

Lemma validate_text_valid_inv (text : str) :
  is_valid (validate_text text) = true ->
  nonempty (strip text) = true
  /\ (length (strip text) <= AppConfig.MAX_TEXT_LENGTH)%nat
  /\ forallb text_char_allowed text = true.
Proof.
  unfold validate_text.
  destruct (negb (nonempty text) || negb (nonempty (strip text))) eqn:Hblank;
    [done|].
  apply orb_false_iff in Hblank as [_ Hstrip]. apply negb_false_iff in Hstrip.
  destruct (Nat.ltb_spec AppConfig.MAX_TEXT_LENGTH (length (strip text)));
    [done|].
  rewrite existsb_negb_forallb.
  destruct (forallb text_char_allowed text); [done|done].
Qed.

(** The generate action starts a worker only on a core, for the trimmed
    text of the input field, and only when that text is not empty, has at
    most 5000 characters, all of them allowed, and the voice is in the
    catalog; in every other case it shows an error and starts nothing. *)
Theorem generate_speech_starts_only_checked_requests
    (tts_core : option TextToSpeechCore) (text_input voice : str) (w : worker) :
  _generate_speech tts_core text_input voice = started w ->
  exists core,
    tts_core = Some core
    /\ w = create_worker core (strip text_input) voice
    /\ strip text_input <> []
    /\ (length (strip text_input) <= AppConfig.MAX_TEXT_LENGTH)%nat
    /\ forallb text_char_allowed (strip text_input) = true
    /\ voice ∈ AppConfig.VOICES.
Proof.
  unfold _generate_speech. destruct tts_core as [core|]; [|done].
  destruct (is_valid (validate_request (strip text_input) voice)) eqn:Hreq;
    cbn [negb]; [|done].
  intros [= <-]. exists core. split; [done|]. split; [done|].
  rewrite validate_request_valid in Hreq.
  apply andb_true_iff in Hreq as [Htext Hvoice].
  apply validate_text_valid_inv in Htext as (Hne & Hlen & Hchars).
  pose proof (strip_idempotent text_input) as Hstrip. unfold trimmed in Hstrip.
  rewrite Hstrip in Hne, Hlen.
  split; [by destruct (strip text_input)|]. split; [done|]. split; [done|].
  rewrite validate_voice_catalog in Hvoice. by apply bool_decide_eq_true in Hvoice.
Qed.

(** When the credential, the text and the voice pass the checks and the
    backend answers with audio, the single-voice worker emits its three
    progress texts and then the audio of the answer, after one call. *)
Theorem single_voice_success (api_key text voice : str) (st : wstate)
    (data : bytes) (ps : list part) (cs : list candidate) :
  is_valid (validate_api_key api_key) = true ->
  is_valid (validate_text text) = true ->
  is_valid (validate_voice voice) = true ->
  backend (calls st) (single_voice_request api_key voice text)
  = returned (content (inline_data data :: ps) :: cs) ->
  data <> [] ->
  TTSWorker_run api_key text voice st
  = (Ok tt,
     mkState
       (signals st
        ++ [progress (lit "Инициализация TTS клиента...");
            progress (lit "Отправка запроса к API...");
            progress (lit "Обработка ответа...");
            finished data])
       (calls st ++ [single_voice_request api_key voice text])).
Proof.
  intros Hkey Htext Hvoice Hr Hdata. unfold TTSWorker_run.
  rewrite Hkey, Htext, Hvoice. cbn [negb].
  rewrite (genai_Client_built _ (valid_key_nonempty _ Hkey)).
  run_monad. rewrite Hr.
  cbn [is_empty_response first_audio_data].
  rewrite (bool_decide_eq_false_2 _ Hdata). cbn [signals calls].
  by rewrite <- !app_assoc.
Qed.

(** Without the audio library the sequential path reports an error at
    once and calls nothing.  A native attempt that fails then ends in that
    error: after its one call when the credential is not empty and the
    call fails, and with no call at all when the credential is empty and
    no client is built. *)
Theorem without_pydub_only_native_succeeds (api_key : str)
    (segments : list segment) (st : wstate) :
  PYDUB_AVAILABLE = false ->
  _generate_sequential api_key segments st
  = (Ok tt,
     mkState
       (signals st
        ++ [error (lit "Для работы с несколькими голосами нужна библиотека pydub.")])
       (calls st))
  /\ (api_key <> [] ->
      native_failure (backend (calls st) (native_request api_key segments)) ->
      _generate_native_multispeaker api_key segments st
      = (Ok tt,
         mkState
           (signals st
            ++ [progress (lit "Генерация мультиспикерного аудио...");
                error (lit "Для работы с несколькими голосами нужна библиотека pydub.")])
           (calls st ++ [native_request api_key segments])))
  /\ (api_key = [] ->
      _generate_native_multispeaker api_key segments st
      = (Ok tt,
         mkState
           (signals st
            ++ [progress (lit "Генерация мультиспикерного аудио...");
                error (lit "Для работы с несколькими голосами нужна библиотека pydub.")])
           (calls st))).
Proof.
  intros Hpydub.
  assert (Hseq : forall key st',
    _generate_sequential key segments st'
    = (Ok tt,
       mkState
         (signals st'
          ++ [error (lit "Для работы с несколькими голосами нужна библиотека pydub.")])
         (calls st'))).
  { intros key st'. unfold _generate_sequential. by rewrite Hpydub. }
  split; [apply Hseq|]. split.
  - intros Hkey Hfail.
    rewrite (native_failure_run _ _ _ Hkey Hfail), Hseq. cbn [signals calls].
    by rewrite <- app_assoc.
  - intros ->. rewrite native_client_error_run, Hseq. cbn [signals calls].
    by rewrite <- app_assoc.
Qed.

End Pipeline.

(** ** Runs on sample inputs *)

Lemma multi_voice_requests_witness :
  (exists m,
     _generate_speech ascii_texts_only
       (TextToSpeechCore_init no_key_error (lit "bad")
          (settings_read (mkQSettings ∅ ∅ ∅)))
       tagged_with_delimiter (lit "Puck")
     = show_error m)
  /\ (sample_key = sample_key
      /\ is_valid (validate_api_key sample_key) = true
      /\ is_valid (validate_text ascii_texts_only (strip tagged_with_delimiter))
         = true
      /\ [(lit "Kore", lit "A---B")]
         = parse ascii_texts_only (strip tagged_with_delimiter) (lit "Puck")
             (SettingsManager_get_delimiter_enabled (mkQSettings ∅ ∅ ∅))
             (SettingsManager_get_delimiter_string (mkQSettings ∅ ∅ ∅))
             (SettingsManager_get_delimiter_voice_sequence (mkQSettings ∅ ∅ ∅))
      /\ Forall (fun s : segment => is_valid (validate_voice (fst s)) = true)
           [(lit "Kore", lit "A---B")])
  /\ exists sent,
       calls
         (snd (run ascii_texts_only backend_ok true export_raw no_key_error
                 (create_worker ascii_texts_only
                    (mkCore sample_key (settings_read (mkQSettings ∅ ∅ ∅)))
                    (lit "Hello") (lit "Puck"))
                 idle))
       = calls idle ++ sent
       /\ Forall request_validated sent.
Proof.
  assert (Hbad : is_valid (validate_api_key (lit "bad")) = false)
    by (vm_compute; reflexivity).
  assert (Hstarted :
    _generate_speech ascii_texts_only
      (TextToSpeechCore_init no_key_error sample_key
         (settings_read (mkQSettings ∅ ∅ ∅)))
      tagged_with_delimiter (lit "Puck")
    = started (MultiVoiceTTSWorker sample_key [(lit "Kore", lit "A---B")] false))
    by (vm_compute; reflexivity).
  assert (Hcore :
    TextToSpeechCore_init no_key_error sample_key
      (settings_read (mkQSettings ∅ ∅ ∅))
    = Some (mkCore sample_key (settings_read (mkQSettings ∅ ∅ ∅))))
    by (vm_compute; reflexivity).
  assert (Hvoice : is_valid (validate_voice (lit "Puck")) = true)
    by (vm_compute; reflexivity).
  pose proof (multi_voice_requests_are_validated_first ascii_texts_only
                backend_ok true export_raw no_key_error (lit "bad")
                (mkQSettings ∅ ∅ ∅) tagged_with_delimiter (lit "Puck")) as H1.
  cbv zeta in H1. destruct H1 as [H1 _].
  pose proof (multi_voice_requests_are_validated_first ascii_texts_only
                backend_ok true export_raw no_key_error sample_key
                (mkQSettings ∅ ∅ ∅) tagged_with_delimiter (lit "Puck")) as H2.
  cbv zeta in H2. destruct H2 as [_ [H2 H3]].
  split; [exact (H1 (or_introl Hbad))|].
  split; [exact (H2 _ _ _ Hstarted)|].
  exact (H3 _ (lit "Hello") idle Hcore Hvoice).
Defined.

(** C2, as stated, fails: a text made of one tag parses to one segment,
    and still goes to the multi-voice worker, which reports segment 1/1. *)
Lemma single_tag_goes_through_multi_voice_worker :
  parse ascii_texts_only single_tag_text (lit "Puck") false (lit "---") []
  = [(lit "Kore", lit "Hi")]
  /\ create_worker ascii_texts_only
       (mkCore sample_key (mkSettings false (lit "---") [] true))
       single_tag_text (lit "Puck")
     = MultiVoiceTTSWorker sample_key [(lit "Kore", lit "Hi")] true
  /\ signals
       (snd (run ascii_texts_only backend_ok true export_raw no_key_error
               (create_worker ascii_texts_only
                  (mkCore sample_key (mkSettings false (lit "---") [] true))
                  single_tag_text (lit "Puck"))
               idle))
     = [progress (lit "Генерация сегмента 1/1 (голос: Kore)...");
        finished sample_audio].
Proof. vm_compute. repeat split. Qed.

(** C3, as stated, fails: when the call for segment 2 of 3 raises, the
    error text does not hold the number 2. *)
Lemma raised_call_error_lacks_segment_number :
  signals
    (snd (_generate_sequential backend_second_raises true export_raw no_key_error
            sample_key three_segments idle))
  = [progress (lit "Генерация сегмента 1/3 (голос: Kore)...");
     progress (lit "Генерация сегмента 2/3 (голос: Puck)...");
     error (lit "Ошибка при генерации речи из нескольких сегментов: timeout")]
  /\ contains (decimal 2)
       (lit "Ошибка при генерации речи из нескольких сегментов: timeout")
     = false.
Proof. vm_compute. repeat split. Qed.

(** C9, as stated, fails: a key that starts with a space, so neither
    starts with AIza nor is free of other characters, is accepted. *)
Lemma padded_key_is_accepted :
  is_valid (validate_api_key padded_key) = true
  /\ startswith (lit "AIza") padded_key = false
  /\ forallb is_key_char padded_key = false.
Proof. vm_compute. repeat split. Qed.

Lemma validate_api_key_witness :
  is_valid (validate_api_key short_key) = false
  /\ is_valid (validate_api_key sample_key) = true.
Proof.
  split.
  - apply (proj1 (proj2 (validate_api_key_checks_trimmed_key short_key))).
    vm_compute. reflexivity.
  - apply (proj2 (proj2 (validate_api_key_checks_trimmed_key sample_key)));
      vm_compute; reflexivity.
Defined.

Lemma native_failure_witness :
  _generate_native_multispeaker backend_first_empty true export_raw
    no_key_error sample_key two_voices idle
  = _generate_sequential backend_first_empty true export_raw no_key_error
      sample_key two_voices
      (mkState [progress (lit "Генерация мультиспикерного аудио...")]
         [native_request sample_key two_voices])
  /\ signals
       (snd (_generate_native_multispeaker backend_first_empty true export_raw
               no_key_error sample_key two_voices idle))
     = [progress (lit "Генерация мультиспикерного аудио...");
        progress (lit "Генерация сегмента 1/2 (голос: Kore)...");
        progress (lit "Генерация сегмента 2/2 (голос: Puck)...");
        finished (sample_audio ++ sample_audio)]
  /\ _generate_native_multispeaker backend_ok true export_raw no_key_error
       [] two_voices idle
     = _generate_sequential backend_ok true export_raw no_key_error [] two_voices
         (mkState [progress (lit "Генерация мультиспикерного аудио...")] [])
  /\ snd (_generate_native_multispeaker backend_ok true export_raw no_key_error
            [] two_voices idle)
     = mkState
         [progress (lit "Генерация мультиспикерного аудио...");
          error (lit "Ошибка при генерации речи из нескольких сегментов: "
                 ++ no_key_error)]
         [].
Proof.
  split; [|split; [|split]].
  - apply (proj1 (native_failure_falls_back_to_sequential backend_first_empty
                    true export_raw no_key_error sample_key two_voices idle)).
    + intros H. vm_compute in H. discriminate H.
    + apply no_candidates.
  - vm_compute. reflexivity.
  - exact (proj1 (proj2 (native_failure_falls_back_to_sequential backend_ok
                           true export_raw no_key_error [] two_voices idle))
             eq_refl).
  - vm_compute. reflexivity.
Defined.

Lemma sequential_failure_witness :
  _generate_sequential backend_second_raises true export_raw no_key_error sample_key
    three_segments idle
  = (Ok tt,
     mkState
       ([] ++ sequential_progresses 3 0 (take 2 three_segments)
        ++ [error (lit "Ошибка при генерации речи из нескольких сегментов: "
                   ++ lit "timeout")])
       ([] ++ take 2 (sequential_requests sample_key three_segments))).
Proof.
  refine (proj1 (sequential_failure_aborts_generation backend_second_raises
                   true export_raw no_key_error sample_key three_segments idle 1
                   (raised (lit "timeout")) (lit "timeout") eq_refl _ _ _ _)).
  - intros H. vm_compute in H. discriminate H.
  - intros j Hj. assert (j = O) as -> by lia.
    exists (answer_with sample_audio), sample_audio. split; reflexivity.
  - vm_compute. reflexivity.
  - apply segment_call_raised.
Defined.

Lemma create_worker_dispatch_witness :
  (create_worker ascii_texts_only plain_core (lit "Hello") (lit "Kore")
   = TTSWorker (core_api_key plain_core) (lit "Hello") (lit "Kore")
   /\ exists rest,
        snd (run ascii_texts_only backend_ok true export_raw no_key_error
               (create_worker ascii_texts_only plain_core (lit "Hello")
                  (lit "Kore"))
               idle)
        = mkState
            (signals idle
             ++ progress (lit "Инициализация TTS клиента...")
                :: progress (lit "Отправка запроса к API...") :: rest)
            (calls idle
             ++ [single_voice_request (core_api_key plain_core) (lit "Kore")
                   (lit "Hello")])
        /\ forall m, progress m ∈ rest -> m = lit "Обработка ответа...")
  /\ (create_worker ascii_texts_only plain_core single_tag_text (lit "Puck")
      = MultiVoiceTTSWorker (core_api_key plain_core)
          (parse ascii_texts_only single_tag_text (lit "Puck")
             (get_delimiter_enabled (settings_manager plain_core))
             (get_delimiter_string (settings_manager plain_core))
             (get_delimiter_voice_sequence (settings_manager plain_core)))
          (get_use_native_multispeaker (settings_manager plain_core))
      /\ exists closing,
           run ascii_texts_only backend_ok true export_raw no_key_error
             (create_worker ascii_texts_only plain_core single_tag_text
                (lit "Puck"))
             idle
           = (Ok tt,
              mkState
                ((signals idle ++ [progress (sequential_progress 0 1 (lit "Kore"))])
                 ++ [closing])
                (calls idle
                 ++ [single_voice_request (core_api_key plain_core) (lit "Kore")
                       (lit "Hi")])))
  /\ run ascii_texts_only backend_ok false export_raw no_key_error
       (create_worker ascii_texts_only plain_core single_tag_text (lit "Puck"))
       idle
     = (Ok tt,
        mkState
          (signals idle
           ++ [error (lit "Для работы с несколькими голосами нужна библиотека pydub.")])
          (calls idle)).
Proof.
  assert (Hoff : get_delimiter_enabled (settings_manager plain_core) = false)
    by (vm_compute; reflexivity).
  assert (Hplain : has_voice_tags (lit "Hello") = false)
    by (vm_compute; reflexivity).
  assert (Hkey : is_valid (validate_api_key (core_api_key plain_core)) = true)
    by (vm_compute; reflexivity).
  assert (Htext : is_valid (validate_text ascii_texts_only (lit "Hello")) = true)
    by (vm_compute; reflexivity).
  assert (Hvoice : is_valid (validate_voice (lit "Kore")) = true)
    by (vm_compute; reflexivity).
  assert (Htag : get_delimiter_enabled (settings_manager plain_core)
                 || has_voice_tags single_tag_text = true)
    by (vm_compute; reflexivity).
  assert (Hseg : parse ascii_texts_only single_tag_text (lit "Puck")
                   (get_delimiter_enabled (settings_manager plain_core))
                   (get_delimiter_string (settings_manager plain_core))
                   (get_delimiter_voice_sequence (settings_manager plain_core))
                 = [(lit "Kore", lit "Hi")])
    by (vm_compute; reflexivity).
  assert (Hne : core_api_key plain_core <> [])
    by (intros H; vm_compute in H; discriminate H).
  pose proof (create_worker_dispatch ascii_texts_only backend_ok true
                export_raw no_key_error plain_core (lit "Hello") (lit "Kore"))
    as H1.
  cbv zeta in H1. destruct H1 as [H1 _].
  destruct (H1 Hoff Hplain) as [Hw1 Hrun1].
  pose proof (create_worker_dispatch ascii_texts_only backend_ok true
                export_raw no_key_error plain_core single_tag_text (lit "Puck"))
    as H2.
  cbv zeta in H2. destruct H2 as [_ H2].
  destruct (H2 Htag) as [Hw2 Hrun2].
  destruct (Hrun2 (lit "Kore") (lit "Hi") Hseg idle) as [Hwith _].
  pose proof (create_worker_dispatch ascii_texts_only backend_ok false
                export_raw no_key_error plain_core single_tag_text (lit "Puck"))
    as H3.
  cbv zeta in H3. destruct H3 as [_ H3].
  destruct (H3 Htag) as [_ Hrun3].
  destruct (Hrun3 (lit "Kore") (lit "Hi") Hseg idle) as [_ Hwithout].
  split; [split; [exact Hw1|exact (Hrun1 Hkey Htext Hvoice idle)]|].
  split; [split; [exact Hw2|exact (Hwith eq_refl Hne)]|].
  exact (Hwithout eq_refl).
Defined.

Lemma tag_mode_segments_witness :
  parse ascii_texts_only single_tag_text (lit "Nova") true (lit "---") []
  = tag_mode_spec ascii_texts_only single_tag_text (lit "Nova").
Proof.
  apply (proj1 (tag_mode_segments ascii_texts_only)).
  vm_compute. reflexivity.
Defined.

Lemma tag_mode_ignores_delimiter_witness :
  parse ascii_texts_only tagged_with_delimiter (lit "Nova") true (lit "---")
    [lit "Puck"]
  = tag_mode_spec ascii_texts_only tagged_with_delimiter (lit "Nova")
  /\ tag_mode_spec ascii_texts_only tagged_with_delimiter (lit "Nova")
     = [(lit "Kore", lit "A---B")].
Proof.
  split.
  - refine (proj1 (tag_mode_ignores_delimiter ascii_texts_only
                     tagged_with_delimiter (lit "Nova") true (lit "---")
                     [lit "Puck"] [] (lit "Kore") (lit "A---B") [] _ _ _)).
    + vm_compute. discriminate.
    + vm_compute. reflexivity.
    + vm_compute. reflexivity.
  - vm_compute. reflexivity.
Defined.

Lemma unmatched_marker_witness :
  parse ascii_texts_only unclosed_tag_text (lit "Nova") true (lit "---")
    [lit "Puck"; lit "Kore"]
  = [(lit "Nova", lit "[voice:Kore]A---B")].
Proof.
  etrans.
  - refine (proj1 (unmatched_marker_gives_one_segment ascii_texts_only
                     unclosed_tag_text (lit "Nova") true (lit "---")
                     [lit "Puck"; lit "Kore"] _ _));
      vm_compute; reflexivity.
  - vm_compute. reflexivity.
Defined.

Lemma delimiter_mode_witness :
  parse ascii_texts_only (lit "A---B---C") (lit "Nova") true (lit "---")
    [lit "X"; lit "Y"]
  = delimiter_mode_spec (lit "A---B---C") (lit "Nova") (lit "---")
      [lit "X"; lit "Y"].
Proof.
  apply (proj1 (delimiter_mode_cycles_voices ascii_texts_only)).
  - vm_compute. reflexivity.
  - vm_compute. discriminate.
Defined.

(** ** Runs of the further properties on sample inputs *)

Lemma sample_key_nonempty : sample_key <> [].
Proof. intros H. vm_compute in H. discriminate H. Qed.

Lemma parse_plain_text_witness :
  parse ascii_texts_only (lit " Hello ") (lit "Kore") false (lit "---") []
  = if nonempty (strip (lit " Hello "))
    then [(lit "Kore", strip (lit " Hello "))] else [].
Proof.
  assert (H : has_voice_tags (lit " Hello ") = false)
    by (vm_compute; reflexivity).
  exact (parse_plain_text ascii_texts_only (lit " Hello ") (lit "Kore") false
           (lit "---") [] H (or_introl eq_refl)).
Defined.

Lemma parse_blank_text_witness :
  parse ascii_texts_only (lit "   ") (lit "Kore") true (lit " ") [lit "Puck"]
  = [].
Proof.
  assert (H : forallb is_space (lit "   ") = true)
    by (vm_compute; reflexivity).
  exact (parse_blank_text ascii_texts_only (lit "   ") (lit "Kore") true
           (lit " ") [lit "Puck"] H).
Defined.

Lemma finditer_first_tag_witness :
  let len :=
    (length TAG_OPEN + length (lit "Kore") + 1 + length (lit "there")
     + length TAG_CLOSE)%nat in
  finditer_go ascii_texts_only O O
    (lit "Hi " ++ TAG_OPEN ++ lit "Kore" ++ [93] ++ lit "there" ++ TAG_CLOSE
     ++ lit " bye")
  = mkMatch (O + length (lit "Hi ")) (O + length (lit "Hi ") + len)
      (lit "Kore") (lit "there")
    :: finditer_go ascii_texts_only (O + length (lit "Hi ") + len) O
         (lit " bye").
Proof.
  assert (H1 : 91 ∉ lit "Hi ")
    by (apply (bool_decide_unpack _); vm_compute; exact I).
  assert (H2 : lit "Kore" <> [])
    by (intros H; vm_compute in H; discriminate H).
  assert (H3 : forallb (is_word ascii_texts_only) (lit "Kore") = true)
    by (vm_compute; reflexivity).
  assert (H4 : 91 ∉ lit "there")
    by (apply (bool_decide_unpack _); vm_compute; exact I).
  exact (finditer_first_tag ascii_texts_only O (lit "Hi ") (lit "Kore")
           (lit "there") (lit " bye") H1 H2 H3 H4).
Defined.

Lemma TTSWorker_run_validates_first_witness :
  calls (snd (TTSWorker_run ascii_texts_only backend_ok no_key_error (lit "bad")
                (lit "Hello") (lit "Kore") idle))
  = calls idle
  /\ exists m,
       signals (snd (TTSWorker_run ascii_texts_only backend_ok no_key_error (lit "bad")
                       (lit "Hello") (lit "Kore") idle))
       = signals idle ++ [error m].
Proof.
  assert (H : is_valid (validate_api_key (lit "bad")) = false)
    by (vm_compute; reflexivity).
  exact (TTSWorker_run_validates_first ascii_texts_only backend_ok no_key_error (lit "bad")
           (lit "Hello") (lit "Kore") idle (or_introl H)).
Defined.

Lemma sequential_run_shape_witness :
  exists (n : nat) (closing : signal),
    _generate_sequential backend_second_raises true export_raw no_key_error sample_key
      three_segments idle
    = (Ok tt,
       mkState
         (signals idle
          ++ sequential_progresses (length three_segments) O
               (take n three_segments)
          ++ [closing])
         (calls idle ++ take n (sequential_requests sample_key three_segments)))
    /\ (n <= length three_segments)%nat
    /\ is_terminal closing = true
    /\ (is_finished closing = true -> n = length three_segments).
Proof.
  exact (sequential_run_shape backend_second_raises true export_raw no_key_error sample_key
           three_segments idle eq_refl).
Defined.

Lemma sequential_run_completes_witness :
  _generate_sequential backend_ok true export_raw no_key_error sample_key two_voices idle
  = (Ok tt,
     mkState
       (signals idle ++ sequential_progresses (length two_voices) O two_voices
        ++ [finished (export_raw (concat [sample_audio; sample_audio]))])
       (calls idle ++ sequential_requests sample_key two_voices)).
Proof.
  assert (H : forall j data,
    [sample_audio; sample_audio] !! j = Some data ->
    exists rj, segment_answer backend_ok sample_key two_voices idle j = Some rj
               /\ answer_audio rj = Some data).
  { intros j data Hj. exists (answer_with sample_audio).
    destruct j as [|[|j]]; simpl in Hj; [| |discriminate Hj];
      injection Hj as <-; split; vm_compute; reflexivity. }
  exact (sequential_run_completes backend_ok true export_raw no_key_error
           sample_key two_voices [sample_audio; sample_audio] idle eq_refl
           sample_key_nonempty eq_refl H).
Defined.

Lemma no_segment_witness :
  run ascii_texts_only backend_ok true export_raw no_key_error
    (create_worker ascii_texts_only (mkCore sample_key delimiter_on)
       (lit "---") (lit "Kore"))
    idle
  = (Ok tt, mkState (signals idle ++ [finished (export_raw [])]) (calls idle)).
Proof.
  assert (H1 : get_delimiter_enabled
                 (settings_manager (mkCore sample_key delimiter_on))
               || has_voice_tags (lit "---") = true)
    by (vm_compute; reflexivity).
  assert (H2 : parse ascii_texts_only (lit "---") (lit "Kore")
                 (get_delimiter_enabled
                    (settings_manager (mkCore sample_key delimiter_on)))
                 (get_delimiter_string
                    (settings_manager (mkCore sample_key delimiter_on)))
                 (get_delimiter_voice_sequence
                    (settings_manager (mkCore sample_key delimiter_on)))
               = [])
    by (vm_compute; reflexivity).
  assert (H3 : core_api_key (mkCore sample_key delimiter_on) <> [])
    by exact sample_key_nonempty.
  exact (no_segment_reports_empty_audio ascii_texts_only backend_ok true
           export_raw no_key_error (mkCore sample_key delimiter_on) (lit "---")
           (lit "Kore") idle eq_refl H3 H1 H2).
Defined.

Lemma native_success_witness :
  MultiVoiceTTSWorker_run backend_ok true export_raw no_key_error sample_key
    two_voices true idle
  = (Ok tt,
     mkState
       (signals idle
        ++ [progress (lit "Генерация мультиспикерного аудио...");
            finished sample_audio])
       (calls idle ++ [native_request sample_key two_voices]))
  /\ r_speech (native_request sample_key two_voices)
     = multi_speaker_voice_config (unique_speakers two_voices)
  /\ forall v, v ∈ unique_speakers two_voices <-> exists t, (v, t) ∈ two_voices.
Proof.
  assert (H1 : size (unique_speakers two_voices) = 2%nat)
    by (vm_compute; reflexivity).
  assert (H2 : sample_audio <> []) by discriminate.
  exact (native_success_is_one_call backend_ok true export_raw no_key_error
           sample_key two_voices idle sample_audio [] [] sample_key_nonempty H1
           eq_refl H2).
Defined.

Lemma generate_speech_witness :
  exists sent,
    calls
      (snd (run ascii_texts_only backend_ok true export_raw no_key_error
              (create_worker ascii_texts_only
                 (mkCore sample_key (settings_read (mkQSettings ∅ ∅ ∅)))
                 (strip tagged_with_delimiter) (lit "Puck"))
              idle))
    = calls idle ++ sent
    /\ Forall request_validated sent.
Proof.
  assert (H1 : TextToSpeechCore_init no_key_error sample_key
                 (settings_read (mkQSettings ∅ ∅ ∅))
               = Some (mkCore sample_key (settings_read (mkQSettings ∅ ∅ ∅))))
    by (vm_compute; reflexivity).
  assert (H2 : _generate_speech ascii_texts_only
                 (Some (mkCore sample_key (settings_read (mkQSettings ∅ ∅ ∅))))
                 tagged_with_delimiter (lit "Puck")
               = started
                   (create_worker ascii_texts_only
                      (mkCore sample_key (settings_read (mkQSettings ∅ ∅ ∅)))
                      (strip tagged_with_delimiter) (lit "Puck")))
    by (vm_compute; reflexivity).
  exact (generate_speech_sends_validated_requests ascii_texts_only backend_ok
           true export_raw no_key_error sample_key (mkQSettings ∅ ∅ ∅) _
           tagged_with_delimiter (lit "Puck") _ idle H1 H2).
Defined.

Lemma tagged_text_witness :
  is_valid
    (validate_text ascii_texts_only
       (lit "Hi " ++ TAG_OPEN ++ lit "Kore" ++ [93] ++ lit "there"
        ++ TAG_CLOSE ++ lit " bye"))
  = true.
Proof.
  assert (H1 : forallb (text_char_allowed ascii_texts_only) (lit "Hi ") = true)
    by (vm_compute; reflexivity).
  assert (H2 : forallb (is_word ascii_texts_only) (lit "Kore") = true)
    by (vm_compute; reflexivity).
  assert (H3 : forallb (text_char_allowed ascii_texts_only) (lit "there") = true)
    by (vm_compute; reflexivity).
  assert (H4 : forallb (text_char_allowed ascii_texts_only) (lit " bye") = true)
    by (vm_compute; reflexivity).
  assert (H5 : Nat.le
                 (length (lit "Hi " ++ TAG_OPEN ++ lit "Kore" ++ [93]
                          ++ lit "there" ++ TAG_CLOSE ++ lit " bye"))
                 AppConfig.MAX_TEXT_LENGTH)
    by (apply Nat.leb_le; vm_compute; reflexivity).
  exact (tagged_text_passes_validation ascii_texts_only (lit "Hi ") (lit "Kore")
           (lit "there") (lit " bye") H1 H2 H3 H4 H5).
Defined.

Lemma generate_speech_checked_witness :
  exists core,
    Some (mkCore sample_key delimiter_off) = Some core
    /\ create_worker ascii_texts_only (mkCore sample_key delimiter_off)
         (strip (lit " Hello ")) (lit "Kore")
       = create_worker ascii_texts_only core (strip (lit " Hello ")) (lit "Kore")
    /\ strip (lit " Hello ") <> []
    /\ (length (strip (lit " Hello ")) <= AppConfig.MAX_TEXT_LENGTH)%nat
    /\ forallb (text_char_allowed ascii_texts_only) (strip (lit " Hello ")) = true
    /\ lit "Kore" ∈ AppConfig.VOICES.
Proof.
  assert (H : _generate_speech ascii_texts_only
                (Some (mkCore sample_key delimiter_off)) (lit " Hello ")
                (lit "Kore")
              = started
                  (create_worker ascii_texts_only
                     (mkCore sample_key delimiter_off) (strip (lit " Hello "))
                     (lit "Kore")))
    by (vm_compute; reflexivity).
  exact (generate_speech_starts_only_checked_requests ascii_texts_only
           (Some (mkCore sample_key delimiter_off)) (lit " Hello ") (lit "Kore")
           _ H).
Defined.

Lemma single_voice_success_witness :
  TTSWorker_run ascii_texts_only backend_ok no_key_error sample_key (lit "Hello")
    (lit "Kore") idle
  = (Ok tt,
     mkState
       (signals idle
        ++ [progress (lit "Инициализация TTS клиента...");
            progress (lit "Отправка запроса к API...");
            progress (lit "Обработка ответа...");
            finished sample_audio])
       (calls idle ++ [single_voice_request sample_key (lit "Kore") (lit "Hello")])).
Proof.
  assert (H1 : is_valid (validate_api_key sample_key) = true)
    by (vm_compute; reflexivity).
  assert (H2 : is_valid (validate_text ascii_texts_only (lit "Hello")) = true)
    by (vm_compute; reflexivity).
  assert (H3 : is_valid (validate_voice (lit "Kore")) = true)
    by (vm_compute; reflexivity).
  assert (H4 : sample_audio <> []) by discriminate.
  exact (single_voice_success ascii_texts_only backend_ok no_key_error sample_key
           (lit "Hello") (lit "Kore") idle sample_audio [] [] H1 H2 H3 eq_refl H4).
Defined.

Lemma without_pydub_witness :
  _generate_sequential backend_first_empty false export_raw no_key_error
    sample_key two_voices idle
  = (Ok tt,
     mkState
       (signals idle
        ++ [error (lit "Для работы с несколькими голосами нужна библиотека pydub.")])
       (calls idle))
  /\ _generate_native_multispeaker backend_first_empty false export_raw
       no_key_error sample_key two_voices idle
     = (Ok tt,
        mkState
          (signals idle
           ++ [progress (lit "Генерация мультиспикерного аудио...");
               error (lit "Для работы с несколькими голосами нужна библиотека pydub.")])
          (calls idle ++ [native_request sample_key two_voices])).
Proof.
  pose proof (without_pydub_only_native_succeeds backend_first_empty false
                export_raw no_key_error sample_key two_voices idle eq_refl)
    as [Hseq [Hnative _]].
  split; [exact Hseq|].
  apply (Hnative sample_key_nonempty). apply no_candidates.
Defined.
